(** * Wordle solver: a shallow embedding of [src/Main.cpp]

    The development follows the source file top to bottom: the constants,
    [indexForLetter], the class [Word], the struct [GuessFeedback], the class
    [WordleGame] with its guess selection, and the feedback prompt of [main].

    Conventions of the embedding.
    - [int32_t] values are integers of [Z]; every addition the source performs
      on them is wrapped to 32 bits ([wrap32]). Signed overflow is undefined
      in C++; wrap-around is what the usual two's-complement targets do.
    - [char] is [ascii]; [std::string] is [string].
    - [std::array] and [std::bitset] are lists read with [nth] and written
      with [arr_set]; the source only indexes them with loop counters and
      letter indices below their size.
    - [std::vector::operator[]] is checked: an index out of range is
      [Undefined], as is [pop_back] on an empty vector.
    - A function that can throw [std::runtime_error] returns [exc].
    - Standard output is the list of the lines written; what goes to
      [std::cerr] is left out. *)

From Stdlib Require Import ZArith String Ascii List Bool Lia PeanoNat Permutation.
Import ListNotations.

Local Open Scope string_scope.
Local Open Scope list_scope.
Local Open Scope Z_scope.

(** ** Results of fallible code *)

Inductive exc (A : Type) : Type :=
| Ok (a : A)
| Throw (what : string)
| Undefined.

Arguments Ok {A} a.
Arguments Throw {A} what.
Arguments Undefined {A}.

Definition bind {A B : Type} (m : exc A) (k : A -> exc B) : exc B :=
  match m with
  | Ok a => k a
  | Throw what => Throw what
  | Undefined => Undefined
  end.

Notation "x <- m ;; k" := (bind m (fun x => k))
  (at level 61, m at next level, right associativity).

(** ** Machine integers *)

Definition INT32_MAX : Z := 2147483647.

Definition wrap32 (z : Z) : Z := (z + 2 ^ 31) mod 2 ^ 32 - 2 ^ 31.

(** ** Constants *)

Definition NUMBER_OF_LETTERS : nat := 26.
Definition WORD_LENGTH : nat := 5.
Definition MAX_GUESSES : nat := 10.

Definition FEEDBACK_NOT_IN_WORD : Z := 0.
Definition FEEDBACK_IN_WORD : Z := 1.
Definition FEEDBACK_IN_POSITION : Z := 2.

Definition MAX_FEEDBACK_ID : Z :=
  Z.lor (Z.shiftl FEEDBACK_IN_POSITION (0 * 2))
  (Z.lor (Z.shiftl FEEDBACK_IN_POSITION (1 * 2))
  (Z.lor (Z.shiftl FEEDBACK_IN_POSITION (2 * 2))
  (Z.lor (Z.shiftl FEEDBACK_IN_POSITION (3 * 2))
         (Z.shiftl FEEDBACK_IN_POSITION (4 * 2))))).

(** [typedef uint8_t Feedback; typedef char Letter;] *)
Abbreviation Feedback := Z (only parsing).
Abbreviation Letter := ascii (only parsing).

(** ** Arrays *)

(** [l[i] = x] *)
Fixpoint arr_set {A : Type} (l : list A) (i : nat) (x : A) : list A :=
  match l, i with
  | [], _ => []
  | _ :: t, O => x :: t
  | h :: t, S j => h :: arr_set t j x
  end.

(** The code of a character. The range test of [indexForLetter] has the
    same outcome whether [char] is signed or not. *)
Definition char_code (c : Letter) : Z := Z.of_N (N_of_ascii c).

Definition string_at (s : string) (i : nat) : Letter :=
  match String.get i s with
  | Some c => c
  | None => zero
  end.

(** ** indexForLetter *)

Definition indexForLetter (letter : Letter) : exc Z :=
  if negb ((char_code "a"%char <=? char_code letter)
           && (char_code letter <=? char_code "z"%char))
  then Throw "Invalid letter"
  else Ok (char_code letter - char_code "a"%char).

(** ** class Word *)

Record Word : Type := mkWord {
  letters : list Letter;
  letterPositionMap : list (list bool)
}.

(** The members before the constructor body runs: the bitsets are
    value-initialised to zero, the letters are all overwritten by the loop. *)
Definition Word_fresh : Word :=
  {| letters := repeat zero WORD_LENGTH;
     letterPositionMap := repeat (repeat false WORD_LENGTH) NUMBER_OF_LETTERS |}.

(** Lines 57-62, for the values [idxs] of the loop counter. *)
Fixpoint Word_fill (wordString : string) (idxs : list nat) (w : Word) : exc Word :=
  match idxs with
  | [] => Ok w
  | i :: rest =>
      let letter := string_at wordString i in
      let letters' := arr_set (letters w) i letter in
      idx <- indexForLetter letter ;;
      let row := nth (Z.to_nat idx) (letterPositionMap w) [] in
      Word_fill wordString rest
        {| letters := letters';
           letterPositionMap :=
             arr_set (letterPositionMap w) (Z.to_nat idx) (arr_set row i true) |}
  end.

(** [Word(std::string wordString)] *)
Definition Word_ctor (wordString : string) : exc Word :=
  if negb (String.length wordString =? WORD_LENGTH)%nat
  then Throw "Invalid word length"
  else Word_fill wordString (seq 0 WORD_LENGTH) Word_fresh.

Definition Word_at (w : Word) (index : nat) : Letter := nth index (letters w) zero.

Definition toString (w : Word) : string := string_of_list_ascii (letters w).

Definition bitset_any (bits : list bool) : bool := existsb (fun b => b) bits.

Definition containsLetter (w : Word) (letter : Letter) : exc bool :=
  idx <- indexForLetter letter ;;
  Ok (bitset_any (nth (Z.to_nat idx) (letterPositionMap w) [])).

(** A [Word] value of the program: one the constructor returned. *)
Definition IsWord (w : Word) : Prop := exists wordString, Word_ctor wordString = Ok w.

(** ** struct GuessFeedback *)

Record GuessFeedback : Type := mkGuessFeedback {
  guess : list Letter;
  feedback : list Feedback
}.

(** The arrays before a constructor body runs; every entry is overwritten. *)
Definition GuessFeedback_fresh : GuessFeedback :=
  {| guess := repeat zero WORD_LENGTH; feedback := repeat 0 WORD_LENGTH |}.

Fixpoint GuessFeedback_fill_id (guessString : Word) (feedbackId : Z)
    (idxs : list nat) (gf : GuessFeedback) : GuessFeedback :=
  match idxs with
  | [] => gf
  | i :: rest =>
      GuessFeedback_fill_id guessString feedbackId rest
        {| guess := arr_set (guess gf) i (Word_at guessString i);
           feedback := arr_set (feedback gf) i
                         (Z.land (Z.shiftr feedbackId (2 * Z.of_nat i)) 3) |}
  end.

(** [GuessFeedback(Word guessString, int32_t feedbackId)] *)
Definition GuessFeedback_of_id (guessString : Word) (feedbackId : Z) : GuessFeedback :=
  GuessFeedback_fill_id guessString feedbackId (seq 0 WORD_LENGTH) GuessFeedback_fresh.

Fixpoint GuessFeedback_fill_str (guessString feedbackString : string)
    (idxs : list nat) (gf : GuessFeedback) : exc GuessFeedback :=
  match idxs with
  | [] => Ok gf
  | i :: rest =>
      let guess' := arr_set (guess gf) i (string_at guessString i) in
      code <- (let c := string_at feedbackString i in
               if Ascii.eqb c "r"%char then Ok FEEDBACK_NOT_IN_WORD
               else if Ascii.eqb c "y"%char then Ok FEEDBACK_IN_WORD
               else if Ascii.eqb c "g"%char then Ok FEEDBACK_IN_POSITION
               else Throw "Invalid feedback code") ;;
      GuessFeedback_fill_str guessString feedbackString rest
        {| guess := guess'; feedback := arr_set (feedback gf) i code |}
  end.

(** [GuessFeedback(std::string guessString, std::string feedbackString)] *)
Definition GuessFeedback_of_strings (guessString feedbackString : string)
  : exc GuessFeedback :=
  if negb (String.length guessString =? WORD_LENGTH)%nat
  then Throw "Invalid guess length"
  else if negb (String.length feedbackString =? WORD_LENGTH)%nat
  then Throw "Invalid feedback length"
  else GuessFeedback_fill_str guessString feedbackString (seq 0 WORD_LENGTH)
         GuessFeedback_fresh.

(** Lines 140-167: the loop with its early returns; the [switch] has no
    default, a code other than the three passes. *)
Fixpoint isConsistentWith_from (gf : GuessFeedback) (word : Word) (idxs : list nat)
  : exc bool :=
  match idxs with
  | [] => Ok true
  | i :: rest =>
      let code := nth i (feedback gf) 0 in
      let g := nth i (guess gf) zero in
      if code =? FEEDBACK_NOT_IN_WORD then
        b <- containsLetter word g ;;
        if b then Ok false else isConsistentWith_from gf word rest
      else if code =? FEEDBACK_IN_WORD then
        b <- containsLetter word g ;;
        if negb b then Ok false
        else if Ascii.eqb (Word_at word i) g then Ok false
        else isConsistentWith_from gf word rest
      else if code =? FEEDBACK_IN_POSITION then
        if negb (Ascii.eqb (Word_at word i) g) then Ok false
        else isConsistentWith_from gf word rest
      else isConsistentWith_from gf word rest
  end.

Definition isConsistentWith (gf : GuessFeedback) (word : Word) : exc bool :=
  isConsistentWith_from gf word (seq 0 WORD_LENGTH).

(** ** class WordleGame *)

(** [std::vector::operator[]] with the range written out. *)
Definition vec_at {A : Type} (v : list A) (i : Z) : exc A :=
  if i <? 0 then Undefined
  else match nth_error v (Z.to_nat i) with
       | Some x => Ok x
       | None => Undefined
       end.

Record WordleGame : Type := mkWordleGame {
  guessWords : list Word;
  answerWords : list Word;
  feedbacks : list GuessFeedback
}.

(** The constructor appends the answer words to the guess words. *)
Definition WordleGame_ctor (guessWordList answerWordList : list Word) : WordleGame :=
  {| guessWords := guessWordList ++ answerWordList;
     answerWords := answerWordList;
     feedbacks := [] |}.

(** Lines 210-226. *)
Fixpoint computeFeedbackId_from (guess solution : Word) (idxs : list nat) (result : Z)
  : exc Z :=
  match idxs with
  | [] => Ok result
  | i :: rest =>
      code <- (if Ascii.eqb (Word_at solution i) (Word_at guess i)
               then Ok FEEDBACK_IN_POSITION
               else b <- containsLetter solution (Word_at guess i) ;;
                    Ok (if b then FEEDBACK_IN_WORD else FEEDBACK_NOT_IN_WORD)) ;;
      computeFeedbackId_from guess solution rest
        (Z.lor result (Z.shiftl code (2 * Z.of_nat i)))
  end.

Definition computeFeedbackId (guess solution : Word) : exc Z :=
  computeFeedbackId_from guess solution (seq 0 WORD_LENGTH) 0.

Definition computeFeedback (guess solution : Word) : exc GuessFeedback :=
  feedbackId <- computeFeedbackId guess solution ;;
  Ok (GuessFeedback_of_id guess feedbackId).

Definition pushFeedback (guessFeedback : GuessFeedback) (game : WordleGame) : WordleGame :=
  {| guessWords := guessWords game;
     answerWords := answerWords game;
     feedbacks := feedbacks game ++ [guessFeedback] |}.

Definition popFeedback (game : WordleGame) : exc WordleGame :=
  match feedbacks game with
  | [] => Undefined
  | _ :: _ =>
      Ok {| guessWords := guessWords game;
            answerWords := answerWords game;
            feedbacks := removelast (feedbacks game) |}
  end.

Fixpoint isPossibleAnswer_from (fbs : list GuessFeedback) (word : Word) : exc bool :=
  match fbs with
  | [] => Ok true
  | guessFeedback :: rest =>
      b <- isConsistentWith guessFeedback word ;;
      if negb b then Ok false else isPossibleAnswer_from rest word
  end.

Definition isPossibleAnswer (game : WordleGame) (word : Word) : exc bool :=
  isPossibleAnswer_from (feedbacks game) word.

(** *** getGuess, loop by loop *)

(** Lines 247-253: count the possible solutions. *)
Fixpoint countPossibleSolutions (game : WordleGame) (sols : list Word)
    (numPossibleSolutions : Z) : exc Z :=
  match sols with
  | [] => Ok numPossibleSolutions
  | possibleSolution :: rest =>
      b <- isPossibleAnswer game possibleSolution ;;
      countPossibleSolutions game rest
        (if b then wrap32 (numPossibleSolutions + 1) else numPossibleSolutions)
  end.

(** Lines 257-263: print the possible solutions, one per line. *)
Fixpoint printPossibleSolutions (game : WordleGame) (sols : list Word)
    (out : list string) : exc (list string) :=
  match sols with
  | [] => Ok out
  | possibleSolution :: rest =>
      b <- isPossibleAnswer game possibleSolution ;;
      printPossibleSolutions game rest
        (if b then out ++ [toString possibleSolution] else out)
  end.

(** Lines 267-273: return the first possible solution, if there is one. *)
Fixpoint firstPossibleSolution (game : WordleGame) (sols : list Word)
  : exc (option Word) :=
  match sols with
  | [] => Ok None
  | possibleSolution :: rest =>
      b <- isPossibleAnswer game possibleSolution ;;
      if b then Ok (Some possibleSolution) else firstPossibleSolution game rest
  end.

(** Lines 282-288: fill the table of counts per feedback id. *)
Fixpoint countFeedbackIds (game : WordleGame) (potentialGuess : Word)
    (sols : list Word) (feedbackIdCounts : list Z) : exc (list Z) :=
  match sols with
  | [] => Ok feedbackIdCounts
  | presumedSolution :: rest =>
      b <- isPossibleAnswer game presumedSolution ;;
      if negb b then countFeedbackIds game potentialGuess rest feedbackIdCounts
      else
        feedbackId <- computeFeedbackId potentialGuess presumedSolution ;;
        c <- vec_at feedbackIdCounts feedbackId ;;
        countFeedbackIds game potentialGuess rest
          (arr_set feedbackIdCounts (Z.to_nat feedbackId) (wrap32 (c + 1)))
  end.

(** Lines 294-300: with the speculative feedback pushed, add the count of the
    feedback id once per solution that is still possible. *)
Fixpoint addRemaining (game : WordleGame) (sols : list Word)
    (feedbackIdCounts : list Z) (feedbackId : Z)
    (numberRemainingPossibleSolutions : Z) : exc Z :=
  match sols with
  | [] => Ok numberRemainingPossibleSolutions
  | possibleSolution :: rest =>
      b <- isPossibleAnswer game possibleSolution ;;
      if b then
        c <- vec_at feedbackIdCounts feedbackId ;;
        addRemaining game rest feedbackIdCounts feedbackId
          (wrap32 (numberRemainingPossibleSolutions + c))
      else
        addRemaining game rest feedbackIdCounts feedbackId
          numberRemainingPossibleSolutions
  end.

(** The values the loop counter [feedbackId] of line 289 takes. *)
Definition feedbackIdRange : list Z :=
  map Z.of_nat (seq 0 (Z.to_nat (MAX_FEEDBACK_ID + 1))).

(** Lines 289-302. *)
Fixpoint scoreFeedbackIds (game : WordleGame) (potentialGuess : Word)
    (feedbackIdCounts : list Z) (ids : list Z)
    (numberRemainingPossibleSolutions : Z) : exc (Z * WordleGame) :=
  match ids with
  | [] => Ok (numberRemainingPossibleSolutions, game)
  | feedbackId :: rest =>
      c <- vec_at feedbackIdCounts feedbackId ;;
      if c =? 0 then
        scoreFeedbackIds game potentialGuess feedbackIdCounts rest
          numberRemainingPossibleSolutions
      else
        let game1 := pushFeedback (GuessFeedback_of_id potentialGuess feedbackId) game in
        n <- addRemaining game1 (answerWords game1) feedbackIdCounts feedbackId
               numberRemainingPossibleSolutions ;;
        game2 <- popFeedback game1 ;;
        scoreFeedbackIds game2 potentialGuess feedbackIdCounts rest n
  end.

(** Lines 278-302: the score of one potential guess. *)
Definition scoreGuess (game : WordleGame) (potentialGuess : Word)
  : exc (Z * WordleGame) :=
  let feedbackIdCounts := repeat 0 (Z.to_nat (MAX_FEEDBACK_ID + 1)) in
  feedbackIdCounts <- countFeedbackIds game potentialGuess (answerWords game)
                        feedbackIdCounts ;;
  scoreFeedbackIds game potentialGuess feedbackIdCounts feedbackIdRange 0.

(** Lines 276-309: the loop over the potential guesses. *)
Fixpoint selectBest (game : WordleGame) (gs : list Word)
    (leastPossibleSolutions : Z) (bestGuess : Word) : exc (Z * Word * WordleGame) :=
  match gs with
  | [] => Ok (leastPossibleSolutions, bestGuess, game)
  | potentialGuess :: rest =>
      r <- scoreGuess game potentialGuess ;;
      let '(numberRemainingPossibleSolutions, game') := r in
      if (numberRemainingPossibleSolutions <? leastPossibleSolutions)
         || (leastPossibleSolutions <? 0)
      then selectBest game' rest numberRemainingPossibleSolutions potentialGuess
      else selectBest game' rest leastPossibleSolutions bestGuess
  end.

(** [getGuess] returns the guess, the game after the call and the lines
    written to standard output. *)
Definition getGuess (game : WordleGame) : exc (Word * WordleGame * list string) :=
  if (length (feedbacks game) =? 0)%nat then
    w <- Word_ctor "roate" ;;
    Ok (w, game, [])
  else
    bestGuess <- vec_at (guessWords game) 0 ;;
    numPossibleSolutions <- countPossibleSolutions game (answerWords game) 0 ;;
    out <- (if numPossibleSolutions <? 100
            then printPossibleSolutions game (answerWords game) ["POSSIBLE SOLUTIONS: "]
            else Ok []) ;;
    early <- (if numPossibleSolutions <=? 2
              then firstPossibleSolution game (answerWords game)
              else Ok None) ;;
    match early with
    | Some possibleSolution => Ok (possibleSolution, game, out)
    | None =>
        r <- selectBest game (guessWords game) (-1) bestGuess ;;
        let '(_, best, game') := r in
        Ok (best, game', out)
    end.

(** ** The feedback prompt of main (lines 371-388)

    Standard input is the list of the lines still to be read. When it is
    exhausted [std::getline] fails and the loop prompts for ever with the
    game it has: [Starved]. *)

Inductive prompt_result : Type :=
| Accepted (game : WordleGame) (out : list string) (stdin : list string)
| Starved (game : WordleGame) (out : list string)
| Crashed.

(** One round of the [do ... while (!gotFeedback)] loop on a line read:
    the game, the lines printed and [gotFeedback] after it. *)
Definition promptStep (game : WordleGame) (guess : Word) (line : string)
  : exc (WordleGame * list string * bool) :=
  match GuessFeedback_of_strings (toString guess) line with
  | Ok guessFeedback => Ok (pushFeedback guessFeedback game, ["feedback: "], true)
  | Throw _ => Ok (game, ["feedback: "; "Invalid feedback!"], false)
  | Undefined => Undefined
  end.

Fixpoint promptFeedback (game : WordleGame) (guess : Word) (stdin : list string)
    (out : list string) : prompt_result :=
  match stdin with
  | [] => Starved game (out ++ ["feedback: "])
  | line :: rest =>
      match promptStep game guess line with
      | Ok (game', printed, gotFeedback) =>
          if gotFeedback then Accepted game' (out ++ printed) rest
          else promptFeedback game' guess rest (out ++ printed)
      | _ => Crashed
      end
  end.

(** * Notions used in the statements and proofs *)

(** The letters [indexForLetter] accepts, and the row of the position map
    it selects for them. *)
Definition is_lower (c : Letter) : bool :=
  (char_code "a"%char <=? char_code c) && (char_code c <=? char_code "z"%char).

Definition letter_row (c : Letter) : nat := Z.to_nat (char_code c - char_code "a"%char).

(** What the constructor of [Word] establishes. *)
Record Word_ok (w : Word) : Prop := {
  ok_length : length (letters w) = WORD_LENGTH;
  ok_lower : forall i, (i < WORD_LENGTH)%nat -> is_lower (Word_at w i) = true;
  ok_contains : forall c, is_lower c = true ->
    bitset_any (nth (letter_row c) (letterPositionMap w) []) =
    existsb (Ascii.eqb c) (letters w)
}.

(** The state of the constructor's loop before iteration [i]. *)
Definition fill_inv (wordString : string) (i : nat) (w : Word) : Prop :=
  length (letters w) = WORD_LENGTH /\
  length (letterPositionMap w) = NUMBER_OF_LETTERS /\
  (forall j, (j < NUMBER_OF_LETTERS)%nat ->
     length (nth j (letterPositionMap w) []) = WORD_LENGTH) /\
  (forall p, (p < i)%nat ->
     nth p (letters w) zero = string_at wordString p /\
     is_lower (string_at wordString p) = true) /\
  (forall j p, (j < NUMBER_OF_LETTERS)%nat -> (p < WORD_LENGTH)%nat ->
     nth p (nth j (letterPositionMap w) []) false = true <->
     (p < i)%nat /\ letter_row (string_at wordString p) = j).

(** [containsLetter] on a [Word] and an accepted letter, as a search
    through the letters. *)
Definition containsb (w : Word) (c : Letter) : bool := existsb (Ascii.eqb c) (letters w).

(** The outcome code [computeFeedbackId] gives to position [i]. *)
Definition codeAt (guess solution : Word) (i : nat) : Z :=
  if Ascii.eqb (Word_at solution i) (Word_at guess i) then FEEDBACK_IN_POSITION
  else if containsb solution (Word_at guess i) then FEEDBACK_IN_WORD
  else FEEDBACK_NOT_IN_WORD.

Definition codesOf (guess solution : Word) : list Z :=
  map (codeAt guess solution) (seq 0 WORD_LENGTH).

(** The packing [computeFeedbackId] performs, on a given array of codes:
    [result |= code << (2 * i)] for the positions in turn. *)
Fixpoint packKey_from (codes : list Z) (i : nat) (result : Z) : Z :=
  match codes with
  | [] => result
  | code :: rest =>
      packKey_from rest (S i) (Z.lor result (Z.shiftl code (2 * Z.of_nat i)))
  end.

Definition packKey (codes : list Z) : Z := packKey_from codes 0 0.

(** The test [isConsistentWith] applies at position [i]. *)
Definition okAt (gf : GuessFeedback) (word : Word) (i : nat) : bool :=
  let code := nth i (feedback gf) 0 in
  let g := nth i (guess gf) zero in
  if code =? FEEDBACK_NOT_IN_WORD then negb (containsb word g)
  else if code =? FEEDBACK_IN_WORD
       then containsb word g && negb (Ascii.eqb (Word_at word i) g)
  else if code =? FEEDBACK_IN_POSITION then Ascii.eqb (Word_at word i) g
  else true.

Definition consistentb (gf : GuessFeedback) (word : Word) : bool :=
  forallb (okAt gf word) (seq 0 WORD_LENGTH).

(** The guess of a feedback is made of accepted letters. *)
Definition guess_ok (gf : GuessFeedback) : Prop :=
  forall i, (i < WORD_LENGTH)%nat -> is_lower (nth i (guess gf) zero) = true.

(** The three outcome codes. *)
Definition valid_code (c : Z) : Prop :=
  c = FEEDBACK_NOT_IN_WORD \/ c = FEEDBACK_IN_WORD \/ c = FEEDBACK_IN_POSITION.

(** The decoding of [GuessFeedback(Word, int32_t)]: the 2-bit fields of a key. *)
Definition unpackKey (feedbackId : Z) : list Z :=
  map (fun i => Z.land (Z.shiftr feedbackId (2 * Z.of_nat i)) 3) (seq 0 WORD_LENGTH).

Definition possibleb (fbs : list GuessFeedback) (word : Word) : bool :=
  forallb (fun gf => consistentb gf word) fbs.

(** ** Engine states *)

(** A feedback of the program: built by one of the two constructors, with
    a [Word] as the guess. *)
Inductive GuessFeedback_ok : GuessFeedback -> Prop :=
| ok_of_id (w : Word) (feedbackId : Z) :
    IsWord w -> GuessFeedback_ok (GuessFeedback_of_id w feedbackId)
| ok_of_strings (w : Word) (line : string) (gf : GuessFeedback) :
    IsWord w -> GuessFeedback_of_strings (toString w) line = Ok gf ->
    GuessFeedback_ok gf.

(** The engine states: a game constructed from two lists of Words, then any
    number of feedbacks pushed. *)
Inductive EngineState : WordleGame -> Prop :=
| state_ctor (guessWordList answerWordList : list Word) :
    Forall IsWord guessWordList -> Forall IsWord answerWordList ->
    EngineState (WordleGame_ctor guessWordList answerWordList)
| state_push (game : WordleGame) (gf : GuessFeedback) :
    EngineState game -> GuessFeedback_ok gf -> EngineState (pushFeedback gf game).

Record Game_inv (game : WordleGame) : Prop := {
  inv_answers : Forall Word_ok (answerWords game);
  inv_guesses : Forall Word_ok (guessWords game);
  inv_feedbacks : Forall guess_ok (feedbacks game);
  inv_incl : exists gl, guessWords game = gl ++ answerWords game
}.

(** The solution-vocabulary words consistent with the stack, in vocabulary
    order. *)
Definition possible (game : WordleGame) (word : Word) : bool :=
  match isPossibleAnswer game word with
  | Ok b => b
  | _ => false
  end.

Definition candidates (game : WordleGame) : list Word :=
  filter (possible game) (answerWords game).

(** [n_k]: the number of the solutions of [sols] whose feedback id for the
    guess [g] is [k]. *)
Definition producesKey (g : Word) (k : Z) (s : Word) : bool :=
  match computeFeedbackId g s with
  | Ok k' => k' =? k
  | _ => false
  end.

Definition bucketSize (g : Word) (sols : list Word) (k : Z) : Z :=
  Z.of_nat (length (filter (producesKey g k) sols)).

Definition sumZ (l : list Z) : Z := fold_right Z.add 0 l.

(** The sum over all feedback keys of the squared bucket sizes. *)
Definition sumSquares (g : Word) (sols : list Word) : Z :=
  sumZ (map (fun k => bucketSize g sols k * bucketSize g sols k) feedbackIdRange).

(** The same notions on Words, without the error cases. *)
Definition keyOf (g s : Word) : Z := packKey (codesOf g s).

Definition bucketb (g : Word) (sols : list Word) (k : Z) : Z :=
  Z.of_nat (length (filter (fun s => keyOf g s =? k) sols)).

Definition NUM_FEEDBACK_IDS : nat := Z.to_nat (MAX_FEEDBACK_ID + 1).

Definition tableOf (g : Word) (sols : list Word) : list Z :=
  map (fun j => bucketb g sols (Z.of_nat j)) (seq 0 NUM_FEEDBACK_IDS).

(** The choice [selectBest] makes, given the score of every guess. *)
Fixpoint pickBest (score : Word -> Z) (gs : list Word) (least : Z) (best : Word)
  : Z * Word :=
  match gs with
  | [] => (least, best)
  | g :: rest =>
      if (score g <? least) || (least <? 0)
      then pickBest score rest (score g) g
      else pickBest score rest least best
  end.

(** The score [getGuess] accumulates for a potential guess
    ([numberRemainingPossibleSolutions] when the loop body ends). *)
Definition accumulated (game : WordleGame) (g : Word) : Z :=
  match scoreGuess game g with
  | Ok (n, _) => n
  | _ => 0
  end.

(** [w] is the first word of [gs], in order, among those of minimal score. *)
Definition FirstMinimal (score : Word -> Z) (gs : list Word) (w : Word) : Prop :=
  exists pre post,
    gs = pre ++ w :: post /\
    (forall g, In g pre -> score w < score g) /\
    (forall g, In g post -> score w <= score g).

(** The symbols of a feedback line. *)
Definition feedback_char (c : Letter) : bool :=
  Ascii.eqb c "r"%char || Ascii.eqb c "y"%char || Ascii.eqb c "g"%char.

(** ** Concrete words and games for the examples *)

Definition word_of (wordString : string) : Word :=
  match Word_ctor wordString with
  | Ok w => w
  | _ => Word_fresh
  end.

Definition feedback_of (guessString feedbackString : string) : GuessFeedback :=
  match GuessFeedback_of_strings guessString feedbackString with
  | Ok gf => gf
  | _ => GuessFeedback_fresh
  end.

(** Three candidates: the scenario of the specification after a first round. *)
Definition game3 : WordleGame :=
  pushFeedback (feedback_of "roate" "rryrg")
    (WordleGame_ctor [word_of "nnnnn"] [word_of "apple"; word_of "angle"; word_of "ample"]).

(** Two candidates. *)
Definition game2 : WordleGame :=
  pushFeedback (feedback_of "roate" "rryrg")
    (WordleGame_ctor [word_of "nnnnn"] [word_of "apple"; word_of "angle"]).

(** No candidate. *)
Definition game0 : WordleGame :=
  pushFeedback (feedback_of "roate" "ggggg")
    (WordleGame_ctor [word_of "nnnnn"] [word_of "apple"; word_of "angle"]).

(** Both vocabularies empty, after a first round. *)
Definition game_empty : WordleGame :=
  pushFeedback (feedback_of "roate" "rrrrr") (WordleGame_ctor [] []).

(** 46341 candidates, all the same word. *)
Definition many : nat := Z.to_nat 46341.

Definition game_many : WordleGame :=
  pushFeedback (feedback_of "roate" "rrgrr")
    (WordleGame_ctor [word_of "bbbbb"] (repeat (word_of "aaaaa") many)).

(** ** readFileLines and main (lines 335-392)

    A stream is the list of the lines [std::getline] reads from it; a file
    that cannot be opened is [None]. An exception nobody catches ends the
    program ([Terminated]); [exit(1)] is [Exited 1]. The loop of [main] has no
    exit: once standard input is exhausted the program prompts for ever with
    the game it has ([Prompting]). [fuel] bounds the number of guesses. *)

Fixpoint readFileLines_from (stream : list string) (lines : list Word)
  : exc (list Word) :=
  match stream with
  | [] => Ok lines
  | line :: rest =>
      w <- Word_ctor line ;;
      readFileLines_from rest (lines ++ [w])
  end.

Definition readFileLines (stream : list string) : exc (list Word) :=
  readFileLines_from stream [].

Inductive main_result : Type :=
| Exited (code : Z) (out : list string)
| Terminated (what : string) (out : list string)
| Prompting (game : WordleGame) (out : list string)
| UndefinedBehaviour (out : list string)
| OutOfFuel.

Fixpoint mainLoop (fuel : nat) (game : WordleGame) (stdin out : list string)
  : main_result :=
  match fuel with
  | O => OutOfFuel
  | S fuel' =>
      match getGuess game with
      | Ok (guess, game', printed) =>
          let out' := out ++ printed ++ [String.append "guess: " (toString guess)] in
          match promptFeedback game' guess stdin out' with
          | Accepted game'' out'' stdin' => mainLoop fuel' game'' stdin' out''
          | Starved game'' out'' => Prompting game'' out''
          | Crashed => UndefinedBehaviour out'
          end
      | Throw what => Terminated what out
      | Undefined => UndefinedBehaviour out
      end
  end.

Definition main (answersFile guessesFile : option (list string))
    (stdin : list string) : main_result :=
  match answersFile with
  | None => Exited 1 []
  | Some answersStream =>
      match readFileLines answersStream with
      | Ok answerWords =>
          match guessesFile with
          | None => Exited 1 []
          | Some guessesStream =>
              match readFileLines guessesStream with
              | Ok guessWords =>
                  mainLoop (S (length stdin)) (WordleGame_ctor guessWords answerWords)
                    stdin []
              | Throw what => Terminated what []
              | Undefined => UndefinedBehaviour []
              end
          end
      | Throw what => Terminated what []
      | Undefined => UndefinedBehaviour []
      end
  end.

(** ** Notions for the further properties *)

(** A feedback line the constructor from strings accepts for a guess of five
    letters, and the codes it stores for it. *)
Definition valid_line (line : string) : bool :=
  (String.length line =? WORD_LENGTH)%nat
  && forallb feedback_char (list_ascii_of_string line).

Definition code_of_char (c : Letter) : Z :=
  if Ascii.eqb c "r"%char then FEEDBACK_NOT_IN_WORD
  else if Ascii.eqb c "y"%char then FEEDBACK_IN_WORD
  else FEEDBACK_IN_POSITION.

Definition codes_of_line (line : string) : list Z :=
  map code_of_char (list_ascii_of_string line).

(** A line [Word(std::string)] accepts. *)
Definition valid_word (wordString : string) : bool :=
  (String.length wordString =? WORD_LENGTH)%nat
  && forallb is_lower (list_ascii_of_string wordString).

(** [isConsistentWith] as a test, an exception counting as a failure. *)
Definition consistent (gf : GuessFeedback) (word : Word) : bool :=
  match isConsistentWith gf word with
  | Ok b => b
  | _ => false
  end.

(** [n] calls of [popFeedback]. *)
Fixpoint popFeedbacks (n : nat) (game : WordleGame) : exc WordleGame :=
  match n with
  | O => Ok game
  | S n' => game' <- popFeedback game ;; popFeedbacks n' game'
  end.

(** * Properties *)

(** ** The error monad *)

Lemma bind_Ok_inv {A B : Type} (m : exc A) (k : A -> exc B) (b : B) :
  bind m k = Ok b -> exists a, m = Ok a /\ k a = Ok b.
Proof.
  destruct m as [a| |]; simpl; intros H; try discriminate.
  exists a. split; [reflexivity | exact H].
Qed.

(** ** Arrays *)

Lemma length_arr_set {A : Type} (l : list A) (i : nat) (x : A) :
  length (arr_set l i x) = length l.
Proof.
  revert i. induction l as [|h t IH]; intros [|i]; simpl; auto.
Qed.

Lemma nth_arr_set_eq {A : Type} (l : list A) (i : nat) (x d : A) :
  (i < length l)%nat -> nth i (arr_set l i x) d = x.
Proof.
  revert i. induction l as [|h t IH]; intros [|i] Hi; simpl in *; try lia; auto.
  apply IH. lia.
Qed.

Lemma nth_arr_set_ne {A : Type} (l : list A) (i j : nat) (x d : A) :
  i <> j -> nth j (arr_set l i x) d = nth j l d.
Proof.
  revert i j. induction l as [|h t IH]; intros [|i] [|j] Hij; simpl;
    try congruence; auto.
Qed.

Lemma arr_set_map_seq {A : Type} (f : nat -> A) (k : nat) (v : A) (lo n : nat) :
  arr_set (map f (seq lo n)) k v
  = map (fun j => if (j =? lo + k)%nat then v else f j) (seq lo n).
Proof.
  revert lo k. induction n as [|n IH]; intros lo k; simpl; [reflexivity|].
  destruct k as [|k]; simpl.
  - rewrite Nat.add_0_r, Nat.eqb_refl. f_equal.
    apply map_ext_in. intros j Hj. apply in_seq in Hj.
    destruct (Nat.eqb_spec j lo); [lia | reflexivity].
  - destruct (Nat.eqb_spec lo (lo + S k)); [lia|]. f_equal.
    rewrite IH. apply map_ext. intros j.
    replace (S lo + k)%nat with (lo + S k)%nat by lia. reflexivity.
Qed.

(** ** Letters *)

Lemma char_code_inj (c d : Letter) : char_code c = char_code d -> c = d.
Proof.
  unfold char_code. intros H. apply N2Z.inj in H.
  rewrite <- (ascii_N_embedding c), <- (ascii_N_embedding d). now rewrite H.
Qed.

Lemma indexForLetter_lower (c : Letter) :
  is_lower c = true -> indexForLetter c = Ok (char_code c - char_code "a"%char).
Proof. unfold indexForLetter, is_lower. intros ->. reflexivity. Qed.

Lemma indexForLetter_Ok (c : Letter) (k : Z) :
  indexForLetter c = Ok k -> is_lower c = true /\ k = char_code c - char_code "a"%char.
Proof.
  unfold indexForLetter. fold (is_lower c).
  destruct (is_lower c); simpl; intros H; [|discriminate].
  injection H as <-. auto.
Qed.

Lemma letter_row_lt (c : Letter) :
  is_lower c = true -> (letter_row c < NUMBER_OF_LETTERS)%nat.
Proof.
  unfold is_lower, letter_row, NUMBER_OF_LETTERS. intros H.
  apply andb_true_iff in H as [H1 H2].
  apply Z.leb_le in H1, H2.
  change (char_code "a"%char) with 97 in *. change (char_code "z"%char) with 122 in *.
  lia.
Qed.

Lemma letter_row_inj (c d : Letter) :
  is_lower c = true -> is_lower d = true -> letter_row c = letter_row d -> c = d.
Proof.
  unfold is_lower, letter_row. intros Hc Hd H.
  apply andb_true_iff in Hc as [Hc _]. apply andb_true_iff in Hd as [Hd _].
  apply Z.leb_le in Hc, Hd. apply char_code_inj. lia.
Qed.

Lemma nth_repeat_lt {A : Type} (a d : A) (n i : nat) :
  (i < n)%nat -> nth i (repeat a n) d = a.
Proof.
  revert i. induction n as [|n IH]; intros [|i] Hi; simpl; try lia; auto.
  apply IH. lia.
Qed.

Lemma existsb_nth_iff {A : Type} (f : A -> bool) (l : list A) (d : A) :
  existsb f l = true <-> exists p, (p < length l)%nat /\ f (nth p l d) = true.
Proof.
  rewrite existsb_exists. split.
  - intros (x & Hin & Hx). destruct (In_nth l x d Hin) as (p & Hp & <-). eauto.
  - intros (p & Hp & Hx). exists (nth p l d). split; [now apply nth_In | exact Hx].
Qed.

Lemma bool_eq_iff (a b : bool) : (a = true <-> b = true) -> a = b.
Proof. destruct a, b; intuition congruence. Qed.

(** ** Word: what the constructor establishes *)

Section WordFill.
Variable wordString : string.

Lemma fill_inv_fresh : fill_inv wordString 0 Word_fresh.
Proof.
  unfold fill_inv, Word_fresh. cbn [letters letterPositionMap].
  split; [apply repeat_length|]. split; [apply repeat_length|]. split; [|split].
  - intros j Hj. rewrite nth_repeat_lt by exact Hj. apply repeat_length.
  - intros p Hp. lia.
  - intros j p Hj Hp. rewrite !nth_repeat_lt by assumption.
    split; [discriminate | lia].
Qed.

Lemma fill_inv_step (i : nat) (w : Word) (idx : Z) :
  (i < WORD_LENGTH)%nat ->
  fill_inv wordString i w ->
  indexForLetter (string_at wordString i) = Ok idx ->
  fill_inv wordString (S i)
    {| letters := arr_set (letters w) i (string_at wordString i);
       letterPositionMap :=
         arr_set (letterPositionMap w) (Z.to_nat idx)
           (arr_set (nth (Z.to_nat idx) (letterPositionMap w) []) i true) |}.
Proof.
  intros Hi (Hlen & Hrows & Hrow & Hlet & Hmap) Hidx.
  apply indexForLetter_Ok in Hidx as [Hlow ->].
  fold (letter_row (string_at wordString i)).
  set (c := string_at wordString i) in *.
  assert (Hr : (letter_row c < NUMBER_OF_LETTERS)%nat) by now apply letter_row_lt.
  unfold fill_inv. cbn [letters letterPositionMap].
  rewrite !length_arr_set.
  split; [exact Hlen|]. split; [exact Hrows|]. split; [|split].
  - intros j Hj. destruct (Nat.eq_dec (letter_row c) j) as [<-|Hne].
    + rewrite nth_arr_set_eq by lia. rewrite length_arr_set. now apply Hrow.
    + rewrite nth_arr_set_ne by exact Hne. now apply Hrow.
  - intros p Hp. destruct (Nat.eq_dec i p) as [<-|Hne].
    + split; [apply nth_arr_set_eq; lia | exact Hlow].
    + rewrite nth_arr_set_ne by exact Hne. apply Hlet. lia.
  - intros j p Hj Hp. destruct (Nat.eq_dec (letter_row c) j) as [<-|Hj'].
    + rewrite nth_arr_set_eq by lia.
      destruct (Nat.eq_dec i p) as [<-|Hne].
      * rewrite nth_arr_set_eq by (rewrite Hrow; assumption).
        split; auto.
      * rewrite nth_arr_set_ne by exact Hne. rewrite Hmap by assumption.
        split; intros [H1 H2]; split; auto; lia.
    + rewrite nth_arr_set_ne by exact Hj'. rewrite Hmap by assumption.
      split; intros [H1 H2]; split; auto; try lia.
      destruct (Nat.eq_dec i p) as [<-|Hne]; [contradiction | lia].
Qed.

Lemma Word_fill_inv (n i : nat) (w w' : Word) :
  (i + n <= WORD_LENGTH)%nat ->
  fill_inv wordString i w ->
  Word_fill wordString (seq i n) w = Ok w' ->
  fill_inv wordString (i + n) w'.
Proof.
  revert i w. induction n as [|n IH]; intros i w Hle Hinv Hfill; simpl in Hfill.
  - injection Hfill as <-. now rewrite Nat.add_0_r.
  - apply bind_Ok_inv in Hfill as (idx & Hidx & Hfill).
    replace (i + S n)%nat with (S i + n)%nat by lia.
    eapply IH; [lia | | exact Hfill].
    apply fill_inv_step; [lia | exact Hinv | exact Hidx].
Qed.

Lemma fill_inv_done (w : Word) : fill_inv wordString WORD_LENGTH w -> Word_ok w.
Proof.
  intros (Hlen & Hrows & Hrow & Hlet & Hmap). split.
  - exact Hlen.
  - intros i Hi. unfold Word_at. destruct (Hlet i Hi) as [-> H]. exact H.
  - intros c Hc. apply bool_eq_iff. unfold bitset_any.
    pose proof (letter_row_lt c Hc) as Hr.
    rewrite (existsb_nth_iff _ _ false), (existsb_nth_iff _ _ zero).
    rewrite (Hrow _ Hr). rewrite Hlen.
    split; intros (p & Hp & H); exists p; (split; [exact Hp|]).
    + apply Hmap in H as [_ H]; [|exact Hr|exact Hp].
      destruct (Hlet p Hp) as [Hnth Hlow]. rewrite Hnth.
      apply Ascii.eqb_eq. symmetry.
      apply letter_row_inj; assumption.
    + apply Ascii.eqb_eq in H. apply Hmap; [exact Hr|exact Hp|].
      split; [exact Hp|]. destruct (Hlet p Hp) as [Hnth _].
      rewrite <- Hnth, <- H. reflexivity.
Qed.
End WordFill.

Lemma Word_ctor_ok (wordString : string) (w : Word) :
  Word_ctor wordString = Ok w -> Word_ok w.
Proof.
  unfold Word_ctor. destruct (negb _); [discriminate|]. intros H.
  apply (fill_inv_done wordString).
  apply (Word_fill_inv wordString WORD_LENGTH 0 Word_fresh w);
    [reflexivity | apply fill_inv_fresh | exact H].
Qed.

Lemma IsWord_ok (w : Word) : IsWord w -> Word_ok w.
Proof. intros [s Hs]. exact (Word_ctor_ok s w Hs). Qed.

Lemma containsLetter_ok (w : Word) (c : Letter) :
  Word_ok w -> is_lower c = true -> containsLetter w c = Ok (containsb w c).
Proof.
  intros Hw Hc. unfold containsLetter. rewrite (indexForLetter_lower c Hc). simpl.
  fold (letter_row c). now rewrite (ok_contains w Hw c Hc).
Qed.

Lemma containsb_at (w : Word) (i : nat) :
  Word_ok w -> (i < WORD_LENGTH)%nat -> containsb w (Word_at w i) = true.
Proof.
  intros Hw Hi. unfold containsb. apply existsb_exists.
  exists (Word_at w i). split; [|apply Ascii.eqb_refl].
  unfold Word_at. apply nth_In. now rewrite (ok_length w Hw).
Qed.

(** ** computeFeedbackId and isConsistentWith on Words *)

Lemma computeFeedbackId_from_ok (g s : Word) (n i : nat) (acc : Z) :
  Word_ok g -> Word_ok s -> (i + n <= WORD_LENGTH)%nat ->
  computeFeedbackId_from g s (seq i n) acc
  = Ok (packKey_from (map (codeAt g s) (seq i n)) i acc).
Proof.
  intros Hg Hs. revert i acc. induction n as [|n IH]; intros i acc Hle;
    cbn [computeFeedbackId_from seq map packKey_from].
  - reflexivity.
  - match goal with
    | |- bind ?c _ = _ => assert (Hcode : c = Ok (codeAt g s i))
    end.
    { unfold codeAt. destruct (Ascii.eqb (Word_at s i) (Word_at g i)); [reflexivity|].
      rewrite (containsLetter_ok s (Word_at g i) Hs) by (apply (ok_lower g Hg); lia).
      reflexivity. }
    rewrite Hcode. cbn [bind]. apply IH. lia.
Qed.

Lemma computeFeedbackId_ok (g s : Word) :
  Word_ok g -> Word_ok s -> computeFeedbackId g s = Ok (packKey (codesOf g s)).
Proof.
  intros Hg Hs. unfold computeFeedbackId, packKey, codesOf.
  apply computeFeedbackId_from_ok; auto.
Qed.

Lemma isConsistentWith_from_ok (gf : GuessFeedback) (word : Word) (idxs : list nat) :
  Word_ok word ->
  Forall (fun i => is_lower (nth i (guess gf) zero) = true) idxs ->
  isConsistentWith_from gf word idxs = Ok (forallb (okAt gf word) idxs).
Proof.
  intros Hw. induction 1 as [|i idxs Hi Hrest IH]; simpl; [reflexivity|].
  unfold okAt at 1. cbv zeta.
  destruct (nth i (feedback gf) 0 =? FEEDBACK_NOT_IN_WORD).
  { rewrite (containsLetter_ok word _ Hw Hi). simpl.
    destruct (containsb word _); simpl; [reflexivity | exact IH]. }
  destruct (nth i (feedback gf) 0 =? FEEDBACK_IN_WORD).
  { rewrite (containsLetter_ok word _ Hw Hi). simpl.
    destruct (containsb word _); simpl; [|reflexivity].
    destruct (Ascii.eqb _ _); simpl; [reflexivity | exact IH]. }
  destruct (nth i (feedback gf) 0 =? FEEDBACK_IN_POSITION).
  { destruct (Ascii.eqb _ _); simpl; [exact IH | reflexivity]. }
  exact IH.
Qed.

Lemma isConsistentWith_ok (gf : GuessFeedback) (word : Word) :
  Word_ok word -> guess_ok gf -> isConsistentWith gf word = Ok (consistentb gf word).
Proof.
  intros Hw Hg. apply isConsistentWith_from_ok; [exact Hw|].
  apply Forall_forall. intros i Hi. apply in_seq in Hi. apply Hg. lia.
Qed.

Lemma nth_seq_list {A : Type} (l : list A) (d : A) :
  map (fun i => nth i l d) (seq 0 (length l)) = l.
Proof.
  induction l as [|h t IH]; simpl; [reflexivity|].
  f_equal. rewrite <- seq_shift, map_map. exact IH.
Qed.

Lemma guess_of_id (w : Word) (id : Z) :
  guess (GuessFeedback_of_id w id) = map (Word_at w) (seq 0 WORD_LENGTH).
Proof. reflexivity. Qed.

Lemma feedback_of_id (w : Word) (id : Z) :
  feedback (GuessFeedback_of_id w id)
  = map (fun i => Z.land (Z.shiftr id (2 * Z.of_nat i)) 3) (seq 0 WORD_LENGTH).
Proof. reflexivity. Qed.

Lemma guess_of_id_letters (w : Word) (id : Z) :
  Word_ok w -> guess (GuessFeedback_of_id w id) = letters w.
Proof.
  intros Hw. rewrite guess_of_id. unfold Word_at.
  rewrite <- (ok_length w Hw). apply nth_seq_list.
Qed.

Lemma guess_ok_of_id (w : Word) (id : Z) : Word_ok w -> guess_ok (GuessFeedback_of_id w id).
Proof.
  intros Hw i Hi. rewrite guess_of_id_letters by exact Hw. now apply (ok_lower w Hw).
Qed.

(** ** Packing and unpacking keys *)

Lemma unpack_pack (codes : list Z) :
  length codes = WORD_LENGTH -> Forall valid_code codes ->
  unpackKey (packKey codes) = codes.
Proof.
  intros Hlen Hall.
  destruct codes as [|c0 [|c1 [|c2 [|c3 [|c4 [|]]]]]]; try discriminate Hlen.
  repeat match goal with
         | H : Forall _ (_ :: _) |- _ =>
             let Hc := fresh "Hc" in
             apply Forall_cons_iff in H as [Hc H];
             destruct Hc as [-> | [-> | ->]]
         end;
    reflexivity.
Qed.

Lemma packKey_inj (codes codes' : list Z) :
  length codes = WORD_LENGTH -> Forall valid_code codes ->
  length codes' = WORD_LENGTH -> Forall valid_code codes' ->
  packKey codes = packKey codes' -> codes = codes'.
Proof.
  intros Hl Hv Hl' Hv' Heq.
  rewrite <- (unpack_pack codes Hl Hv), <- (unpack_pack codes' Hl' Hv').
  now rewrite Heq.
Qed.

Lemma codeAt_valid (g s : Word) (i : nat) : valid_code (codeAt g s i).
Proof.
  unfold codeAt, valid_code.
  destruct (Ascii.eqb _ _); [|destruct (containsb _ _)]; auto.
Qed.

Lemma codesOf_length (g s : Word) : length (codesOf g s) = WORD_LENGTH.
Proof. reflexivity. Qed.

Lemma codesOf_valid (g s : Word) : Forall valid_code (codesOf g s).
Proof.
  unfold codesOf. apply Forall_forall. intros c Hc.
  apply in_map_iff in Hc as (i & <- & _). apply codeAt_valid.
Qed.

Lemma feedback_of_id_unpack (w : Word) (id : Z) :
  feedback (GuessFeedback_of_id w id) = unpackKey id.
Proof. reflexivity. Qed.

(** ** A decoded key accepts exactly the solutions that produce it *)

Lemma okAt_code (gf : GuessFeedback) (g s : Word) (i : nat) :
  Word_ok s -> (i < WORD_LENGTH)%nat ->
  nth i (guess gf) zero = Word_at g i ->
  valid_code (nth i (feedback gf) 0) ->
  okAt gf s i = (nth i (feedback gf) 0 =? codeAt g s i).
Proof.
  intros Hs Hi Hg Hv. unfold okAt, codeAt. cbv zeta. rewrite Hg.
  destruct (Ascii.eqb (Word_at s i) (Word_at g i)) eqn:E.
  - apply Ascii.eqb_eq in E. rewrite <- E. rewrite (containsb_at s i Hs Hi).
    destruct Hv as [-> | [-> | ->]]; reflexivity.
  - destruct Hv as [-> | [-> | ->]]; destruct (containsb s (Word_at g i)); reflexivity.
Qed.

Lemma forallb_seq_eqb (l l' : list Z) (n : nat) :
  length l = n -> length l' = n ->
  forallb (fun i => nth i l 0 =? nth i l' 0) (seq 0 n) = true <-> l = l'.
Proof.
  intros Hl Hl'. rewrite forallb_forall. split.
  - intros H. apply (nth_ext l l' 0 0); [congruence|].
    intros i Hi. apply Z.eqb_eq. apply H. apply in_seq. lia.
  - intros -> i _. apply Z.eqb_refl.
Qed.

Lemma consistentb_decoded (g s : Word) (codes : list Z) :
  Word_ok g -> Word_ok s ->
  length codes = WORD_LENGTH -> Forall valid_code codes ->
  consistentb (GuessFeedback_of_id g (packKey codes)) s
  = (packKey (codesOf g s) =? packKey codes).
Proof.
  intros Hg Hs Hlen Hv. apply bool_eq_iff.
  unfold consistentb. rewrite Z.eqb_eq.
  assert (Hext : forall i, In i (seq 0 WORD_LENGTH) ->
            okAt (GuessFeedback_of_id g (packKey codes)) s i
            = (nth i codes 0 =? nth i (codesOf g s) 0)).
  { intros i Hi. apply in_seq in Hi.
    rewrite (okAt_code _ g s i Hs); try lia.
    - rewrite feedback_of_id_unpack, (unpack_pack codes Hlen Hv). f_equal.
      unfold codesOf.
      rewrite (nth_indep _ 0 (codeAt g s 0)) by (rewrite length_map, length_seq; lia).
      rewrite (map_nth (codeAt g s)), seq_nth by lia. reflexivity.
    - rewrite guess_of_id_letters by exact Hg. reflexivity.
    - rewrite feedback_of_id_unpack, (unpack_pack codes Hlen Hv).
      rewrite Forall_forall in Hv. apply Hv. apply nth_In. lia. }
  transitivity (codes = codesOf g s).
  - rewrite <- (forallb_seq_eqb codes (codesOf g s) WORD_LENGTH Hlen eq_refl).
    rewrite !forallb_forall.
    split; intros H i Hi; [rewrite <- Hext | rewrite Hext]; auto.
  - split; [intros ->; reflexivity|].
    intros H. symmetry.
    apply packKey_inj; auto using codesOf_length, codesOf_valid.
Qed.

(** ** 32-bit arithmetic *)

Lemma wrap32_small (z : Z) : - 2 ^ 31 <= z <= INT32_MAX -> wrap32 z = z.
Proof.
  unfold wrap32, INT32_MAX. intros H.
  rewrite Z.mod_small by lia. lia.
Qed.

Lemma wrap32_add_l (a b : Z) : wrap32 (wrap32 a + b) = wrap32 (a + b).
Proof.
  unfold wrap32. f_equal.
  replace ((a + 2 ^ 31) mod 2 ^ 32 - 2 ^ 31 + b + 2 ^ 31)
    with ((a + 2 ^ 31) mod 2 ^ 32 + b) by lia.
  rewrite Zplus_mod_idemp_l. f_equal. lia.
Qed.

(** ** The stack of feedbacks *)

Lemma isPossibleAnswer_from_ok (fbs : list GuessFeedback) (word : Word) :
  Word_ok word -> Forall guess_ok fbs ->
  isPossibleAnswer_from fbs word = Ok (possibleb fbs word).
Proof.
  intros Hw. induction 1 as [|gf fbs Hgf Hfbs IH]; simpl; [reflexivity|].
  rewrite (isConsistentWith_ok gf word Hw Hgf). simpl.
  destruct (consistentb gf word); simpl; [exact IH | reflexivity].
Qed.

Lemma possibleb_push (fbs : list GuessFeedback) (gf : GuessFeedback) (word : Word) :
  possibleb (fbs ++ [gf]) word = possibleb fbs word && consistentb gf word.
Proof.
  unfold possibleb. rewrite forallb_app. simpl. now rewrite andb_true_r.
Qed.

Lemma filter_andb {A : Type} (p q : A -> bool) (l : list A) :
  filter (fun x => p x && q x) l = filter q (filter p l).
Proof.
  induction l as [|x l IH]; simpl; [reflexivity|].
  destruct (p x); simpl; [destruct (q x)|]; now rewrite IH.
Qed.

Lemma pop_push (game : WordleGame) (gf : GuessFeedback) :
  popFeedback (pushFeedback gf game) = Ok game.
Proof.
  destruct game as [gw aw fbs]. unfold popFeedback, pushFeedback.
  cbn [feedbacks guessWords answerWords].
  destruct (fbs ++ [gf]) eqn:E.
  - symmetry in E. now apply app_cons_not_nil in E.
  - rewrite <- E, removelast_last. reflexivity.
Qed.

Lemma string_of_list_length (l : list ascii) :
  String.length (string_of_list_ascii l) = length l.
Proof. induction l as [|c l IH]; simpl; congruence. Qed.

Lemma string_at_of_list (l : list ascii) (i : nat) :
  string_at (string_of_list_ascii l) i = nth i l zero.
Proof.
  unfold string_at. revert i.
  induction l as [|c l IH]; intros [|i]; simpl; auto.
Qed.

(** The loop of the constructor from strings copies the guess. *)
Lemma fill_str_guess (gs fs : string) (n i : nat) (gf0 gf : GuessFeedback) :
  GuessFeedback_fill_str gs fs (seq i n) gf0 = Ok gf ->
  length (guess gf0) = WORD_LENGTH -> (i + n <= WORD_LENGTH)%nat ->
  forall p, ((i <= p < i + n)%nat -> nth p (guess gf) zero = string_at gs p) /\
            ((p < i)%nat -> nth p (guess gf) zero = nth p (guess gf0) zero).
Proof.
  revert i gf0. induction n as [|n IH]; intros i gf0 H Hlen Hle p;
    cbn [GuessFeedback_fill_str seq] in H.
  - injection H as <-. split; [lia | reflexivity].
  - apply bind_Ok_inv in H as (code & _ & H).
    specialize (IH (S i) _ H). cbn [guess] in IH.
    rewrite length_arr_set in IH. specialize (IH Hlen ltac:(lia) p) as [IH1 IH2].
    split; intros Hp.
    + destruct (Nat.eq_dec p i) as [->|Hne].
      * rewrite IH2 by lia. apply nth_arr_set_eq. lia.
      * apply IH1. lia.
    + rewrite IH2 by lia. apply nth_arr_set_ne. lia.
Qed.

Lemma of_strings_guess (gs fs : string) (gf : GuessFeedback) (p : nat) :
  GuessFeedback_of_strings gs fs = Ok gf -> (p < WORD_LENGTH)%nat ->
  nth p (guess gf) zero = string_at gs p.
Proof.
  unfold GuessFeedback_of_strings. intros H Hp.
  destruct (negb _); [discriminate|]. destruct (negb _); [discriminate|].
  apply (fill_str_guess gs fs WORD_LENGTH 0 GuessFeedback_fresh gf H eq_refl (le_n _) p).
  lia.
Qed.

Lemma GuessFeedback_ok_guess (gf : GuessFeedback) : GuessFeedback_ok gf -> guess_ok gf.
Proof.
  intros [w id Hw | w line gf' Hw Hgf].
  - apply guess_ok_of_id. now apply IsWord_ok.
  - intros i Hi. rewrite (of_strings_guess _ _ _ i Hgf Hi).
    unfold toString. rewrite string_at_of_list.
    apply (ok_lower w (IsWord_ok w Hw) i Hi).
Qed.

Lemma EngineState_inv (game : WordleGame) : EngineState game -> Game_inv game.
Proof.
  induction 1 as [gl al Hgl Hal | game gf _ IH Hgf].
  - split; cbn [WordleGame_ctor answerWords guessWords feedbacks].
    + eapply Forall_impl; [apply IsWord_ok | exact Hal].
    + apply Forall_app. split; (eapply Forall_impl; [apply IsWord_ok | eassumption]).
    + constructor.
    + now exists gl.
  - destruct IH as [Ha Hg Hf Hi]. split; cbn [pushFeedback answerWords guessWords feedbacks]; auto.
    apply Forall_app. split; [exact Hf|].
    constructor; [now apply GuessFeedback_ok_guess | constructor].
Qed.

(** ** Keys are in range *)

Lemma packKey_range (codes : list Z) :
  length codes = WORD_LENGTH -> Forall valid_code codes ->
  0 <= packKey codes <= MAX_FEEDBACK_ID.
Proof.
  intros Hlen Hall.
  destruct codes as [|c0 [|c1 [|c2 [|c3 [|c4 [|]]]]]]; try discriminate Hlen.
  repeat match goal with
         | H : Forall _ (_ :: _) |- _ =>
             let Hc := fresh "Hc" in
             apply Forall_cons_iff in H as [Hc H];
             destruct Hc as [-> | [-> | ->]]
         end;
    vm_compute; split; discriminate.
Qed.

Lemma keyOf_range (g s : Word) : 0 <= keyOf g s <= MAX_FEEDBACK_ID.
Proof. apply packKey_range; [apply codesOf_length | apply codesOf_valid]. Qed.

(** ** The loops of getGuess *)

Lemma nth_error_map_seq {A : Type} (f : nat -> A) (lo n k : nat) :
  (k < n)%nat -> nth_error (map f (seq lo n)) k = Some (f (lo + k)%nat).
Proof.
  revert lo k. induction n as [|n IH]; intros lo [|k] Hk; simpl; try lia.
  - now rewrite Nat.add_0_r.
  - rewrite IH by lia. f_equal. f_equal. lia.
Qed.

Lemma map_const_seq {A : Type} (a : A) (lo n : nat) :
  map (fun _ => a) (seq lo n) = repeat a n.
Proof. revert lo. induction n as [|n IH]; intros lo; simpl; [|rewrite IH]; reflexivity. Qed.

Lemma key_index (k : Z) :
  0 <= k <= MAX_FEEDBACK_ID -> (Z.to_nat k < NUM_FEEDBACK_IDS)%nat.
Proof.
  unfold NUM_FEEDBACK_IDS. change MAX_FEEDBACK_ID with 682. lia.
Qed.

Lemma tableOf_nil (g : Word) : tableOf g [] = repeat 0 NUM_FEEDBACK_IDS.
Proof. unfold tableOf, bucketb. cbn [filter length Z.of_nat]. apply map_const_seq. Qed.

Lemma vec_at_tableOf (g : Word) (sols : list Word) (k : Z) :
  0 <= k <= MAX_FEEDBACK_ID -> vec_at (tableOf g sols) k = Ok (bucketb g sols k).
Proof.
  intros Hk. unfold vec_at, tableOf.
  destruct (Z.ltb_spec k 0); [lia|].
  rewrite nth_error_map_seq by now apply key_index.
  rewrite Nat.add_0_l, Z2Nat.id by lia. reflexivity.
Qed.

Lemma bucketb_le (g : Word) (sols : list Word) (k : Z) :
  0 <= bucketb g sols k <= Z.of_nat (length sols).
Proof.
  unfold bucketb. pose proof (filter_length_le (fun s => keyOf g s =? k) sols). lia.
Qed.

Lemma bucketb_snoc (g : Word) (sols : list Word) (s : Word) (k : Z) :
  bucketb g (sols ++ [s]) k = bucketb g sols k + (if keyOf g s =? k then 1 else 0).
Proof.
  unfold bucketb. rewrite filter_app, length_app. cbn [filter].
  destruct (keyOf g s =? k); cbn [length]; lia.
Qed.

Lemma tableOf_snoc (g : Word) (sols : list Word) (s : Word) :
  Z.of_nat (length sols) + 1 <= INT32_MAX ->
  arr_set (tableOf g sols) (Z.to_nat (keyOf g s)) (wrap32 (bucketb g sols (keyOf g s) + 1))
  = tableOf g (sols ++ [s]).
Proof.
  intros Hfit. unfold tableOf. rewrite arr_set_map_seq.
  apply map_ext. intros j. cbn [Nat.add].
  pose proof (keyOf_range g s) as Hk.
  rewrite bucketb_snoc.
  destruct (Nat.eqb_spec j (Z.to_nat (keyOf g s))) as [->|Hne].
  - rewrite Z2Nat.id, Z.eqb_refl by lia.
    apply wrap32_small. pose proof (bucketb_le g sols (keyOf g s)).
    unfold INT32_MAX in *. lia.
  - destruct (Z.eqb_spec (keyOf g s) (Z.of_nat j)) as [E|_]; [|lia].
    exfalso. apply Hne. rewrite E. now rewrite Nat2Z.id.
Qed.

Section Loops.
Variable game : WordleGame.
Hypothesis Hfbs : Forall guess_ok (feedbacks game).

Lemma isPossibleAnswer_ok (word : Word) :
  Word_ok word -> isPossibleAnswer game word = Ok (possibleb (feedbacks game) word).
Proof. intros Hw. now apply isPossibleAnswer_from_ok. Qed.

Lemma countPossibleSolutions_ok (sols : list Word) (n : Z) :
  Forall Word_ok sols ->
  countPossibleSolutions game sols (wrap32 n)
  = Ok (wrap32 (n + Z.of_nat (length (filter (possibleb (feedbacks game)) sols)))).
Proof.
  intros Hsols. revert n.
  induction Hsols as [|s sols Hs _ IH]; intros n;
    cbn [countPossibleSolutions filter].
  - cbn [length Z.of_nat]. now rewrite Z.add_0_r.
  - rewrite (isPossibleAnswer_ok s Hs). cbn [bind].
    destruct (possibleb (feedbacks game) s).
    + rewrite wrap32_add_l, IH. f_equal. f_equal. cbn [length]. lia.
    + apply IH.
Qed.

Lemma printPossibleSolutions_ok (sols : list Word) (out : list string) :
  Forall Word_ok sols ->
  printPossibleSolutions game sols out
  = Ok (out ++ map toString (filter (possibleb (feedbacks game)) sols)).
Proof.
  intros Hsols. revert out.
  induction Hsols as [|s sols Hs _ IH]; intros out;
    cbn [printPossibleSolutions filter].
  - now rewrite app_nil_r.
  - rewrite (isPossibleAnswer_ok s Hs). cbn [bind].
    destruct (possibleb (feedbacks game) s).
    + rewrite IH, <- app_assoc. reflexivity.
    + apply IH.
Qed.

Lemma firstPossibleSolution_ok (sols : list Word) :
  Forall Word_ok sols ->
  firstPossibleSolution game sols
  = Ok (hd_error (filter (possibleb (feedbacks game)) sols)).
Proof.
  induction 1 as [|s sols Hs _ IH]; cbn [firstPossibleSolution filter].
  - reflexivity.
  - rewrite (isPossibleAnswer_ok s Hs). cbn [bind].
    destruct (possibleb (feedbacks game) s); [reflexivity | exact IH].
Qed.

Lemma countFeedbackIds_ok (g : Word) (sols pre : list Word) :
  Word_ok g -> Forall Word_ok sols ->
  Z.of_nat (length pre)
    + Z.of_nat (length (filter (possibleb (feedbacks game)) sols)) <= INT32_MAX ->
  countFeedbackIds game g sols (tableOf g pre)
  = Ok (tableOf g (pre ++ filter (possibleb (feedbacks game)) sols)).
Proof.
  intros Hg Hsols. revert pre.
  induction Hsols as [|s sols Hs _ IH]; intros pre Hfit;
    cbn [countFeedbackIds filter] in *.
  - now rewrite app_nil_r.
  - rewrite (isPossibleAnswer_ok s Hs). cbn [bind].
    destruct (possibleb (feedbacks game) s); cbn [negb].
    + cbn [length] in Hfit.
      rewrite (computeFeedbackId_ok g s Hg Hs). cbn [bind]. fold (keyOf g s).
      rewrite (vec_at_tableOf g pre _ (keyOf_range g s)). cbn [bind].
      rewrite tableOf_snoc by lia.
      rewrite IH by (rewrite length_app; cbn [length]; lia).
      now rewrite <- app_assoc.
    + apply IH. exact Hfit.
Qed.
End Loops.

(** ** The score of a potential guess *)

Lemma addRemaining_ok (game : WordleGame) (sols : list Word) (counts : list Z)
    (k c n : Z) :
  Forall guess_ok (feedbacks game) -> Forall Word_ok sols ->
  vec_at counts k = Ok c ->
  addRemaining game sols counts k (wrap32 n)
  = Ok (wrap32 (n + c * Z.of_nat (length (filter (possibleb (feedbacks game)) sols)))).
Proof.
  intros Hfbs Hsols Hc. revert n.
  induction Hsols as [|s sols Hs _ IH]; intros n; cbn [addRemaining filter].
  - cbn [length Z.of_nat]. f_equal. f_equal. lia.
  - rewrite (isPossibleAnswer_ok game Hfbs s Hs). cbn [bind].
    destruct (possibleb (feedbacks game) s).
    + rewrite Hc. cbn [bind]. rewrite wrap32_add_l, IH. f_equal. f_equal.
      cbn [length]. lia.
    + apply IH.
Qed.

Lemma bucketb_pos_witness (g : Word) (sols : list Word) (k : Z) :
  bucketb g sols k <> 0 -> exists s0, In s0 sols /\ keyOf g s0 = k.
Proof.
  unfold bucketb. intros H.
  destruct (filter (fun s => keyOf g s =? k) sols) as [|s0 l] eqn:E; [easy|].
  assert (Hin : In s0 (filter (fun s => keyOf g s =? k) sols)) by (rewrite E; now left).
  apply filter_In in Hin as [Hin Hk]. exists s0. split; [exact Hin | now apply Z.eqb_eq].
Qed.

Section Score.
Variable game : WordleGame.
Hypothesis Hinv : Game_inv game.
Variable g : Word.
Hypothesis Hg : Word_ok g.

Let cands : list Word := filter (possibleb (feedbacks game)) (answerWords game).

Lemma cands_ok : Forall Word_ok cands.
Proof.
  apply Forall_forall. intros s Hs. apply filter_In in Hs as [Hs _].
  pose proof (inv_answers game Hinv) as Ha. rewrite Forall_forall in Ha. now apply Ha.
Qed.

(** With the feedback decoded from a key that some candidate produces
    pushed, the solutions still possible are the candidates of that key. *)
Lemma speculative_bucket (k : Z) :
  bucketb g cands k <> 0 ->
  Z.of_nat (length (filter
              (possibleb (feedbacks (pushFeedback (GuessFeedback_of_id g k) game)))
              (answerWords game)))
  = bucketb g cands k.
Proof.
  intros Hpos. destruct (bucketb_pos_witness g cands k Hpos) as (s0 & Hs0 & Hk).
  cbn [pushFeedback feedbacks]. unfold bucketb. f_equal. f_equal.
  rewrite (filter_ext _ _ (fun s => possibleb_push (feedbacks game) _ s)).
  rewrite filter_andb. fold cands.
  apply filter_ext_in. intros s Hs.
  pose proof cands_ok as Hc. rewrite Forall_forall in Hc.
  rewrite <- Hk. unfold keyOf.
  apply consistentb_decoded; auto using codesOf_length, codesOf_valid.
Qed.

Lemma scoreFeedbackIds_ok (ids : list Z) (n : Z) :
  Forall (fun k => 0 <= k <= MAX_FEEDBACK_ID) ids ->
  scoreFeedbackIds game g (tableOf g cands) ids (wrap32 n)
  = Ok (wrap32 (n + sumZ (map (fun k => bucketb g cands k * bucketb g cands k) ids)),
        game).
Proof.
  intros Hids. revert n.
  induction Hids as [|k ids Hk _ IH]; intros n; cbn [scoreFeedbackIds map sumZ fold_right].
  - now rewrite Z.add_0_r.
  - fold (sumZ (map (fun k => bucketb g cands k * bucketb g cands k) ids)).
    rewrite (vec_at_tableOf g cands k Hk). cbn [bind].
    destruct (Z.eqb_spec (bucketb g cands k) 0) as [E|Hne].
    + rewrite IH, E, Z.mul_0_l, Z.add_0_l. reflexivity.
    + cbn zeta.
      rewrite (addRemaining_ok _ _ _ k (bucketb g cands k) n).
      * cbn [bind]. rewrite pop_push. cbn [bind].
        cbn [pushFeedback answerWords].
        rewrite (speculative_bucket k Hne), IH, Z.add_assoc. reflexivity.
      * cbn [pushFeedback feedbacks]. apply Forall_app. split.
        -- apply (inv_feedbacks game Hinv).
        -- constructor; [now apply guess_ok_of_id | constructor].
      * apply (inv_answers game Hinv).
      * now apply vec_at_tableOf.
Qed.

Lemma feedbackIdRange_ok : Forall (fun k => 0 <= k <= MAX_FEEDBACK_ID) feedbackIdRange.
Proof.
  unfold feedbackIdRange. apply Forall_forall. intros k Hk.
  apply in_map_iff in Hk as (j & <- & Hj). apply in_seq in Hj.
  change MAX_FEEDBACK_ID with 682 in *. lia.
Qed.

Lemma scoreGuess_wrap :
  Z.of_nat (length cands) <= INT32_MAX ->
  scoreGuess game g
  = Ok (wrap32 (sumZ (map (fun k => bucketb g cands k * bucketb g cands k)
                        feedbackIdRange)),
        game).
Proof.
  intros Hfit. unfold scoreGuess.
  fold NUM_FEEDBACK_IDS. rewrite <- (tableOf_nil g).
  rewrite (countFeedbackIds_ok game (inv_feedbacks game Hinv) g _ [] Hg
             (inv_answers game Hinv)) by (fold cands; cbn [length]; lia).
  cbn [bind app]. fold cands.
  pose proof (scoreFeedbackIds_ok feedbackIdRange 0 feedbackIdRange_ok) as H.
  rewrite Z.add_0_l in H. exact H.
Qed.
End Score.

(** ** The notions of the statements, on Words *)

Lemma possible_ok (game : WordleGame) (word : Word) :
  Forall guess_ok (feedbacks game) -> Word_ok word ->
  possible game word = possibleb (feedbacks game) word.
Proof.
  intros Hf Hw. unfold possible. now rewrite (isPossibleAnswer_ok game Hf word Hw).
Qed.

Lemma candidates_ok (game : WordleGame) :
  Game_inv game ->
  candidates game = filter (possibleb (feedbacks game)) (answerWords game).
Proof.
  intros Hinv. unfold candidates. apply filter_ext_in. intros s Hs.
  apply possible_ok; [apply (inv_feedbacks game Hinv)|].
  pose proof (inv_answers game Hinv) as Ha. rewrite Forall_forall in Ha. now apply Ha.
Qed.

Lemma candidates_words (game : WordleGame) :
  Game_inv game -> Forall Word_ok (candidates game).
Proof.
  intros Hinv. rewrite (candidates_ok game Hinv). now apply cands_ok.
Qed.

Lemma bucketSize_ok (g : Word) (sols : list Word) (k : Z) :
  Word_ok g -> Forall Word_ok sols -> bucketSize g sols k = bucketb g sols k.
Proof.
  intros Hg Hsols. unfold bucketSize, bucketb. f_equal. f_equal.
  apply filter_ext_in. intros s Hs. rewrite Forall_forall in Hsols.
  unfold producesKey. now rewrite (computeFeedbackId_ok g s Hg (Hsols s Hs)).
Qed.

Lemma sumSquares_ok (g : Word) (sols : list Word) :
  Word_ok g -> Forall Word_ok sols ->
  sumSquares g sols
  = sumZ (map (fun k => bucketb g sols k * bucketb g sols k) feedbackIdRange).
Proof.
  intros Hg Hsols. unfold sumSquares. f_equal. apply map_ext. intros k.
  now rewrite (bucketSize_ok g sols k Hg Hsols).
Qed.

(** ** Sums over the key space *)

Lemma sumZ_map_add {A : Type} (f h : A -> Z) (l : list A) :
  sumZ (map (fun x => f x + h x) l) = sumZ (map f l) + sumZ (map h l).
Proof. induction l as [|x l IH]; simpl; lia. Qed.

Lemma sumZ_map_le {A : Type} (f h : A -> Z) (l : list A) :
  (forall x, f x <= h x) -> sumZ (map f l) <= sumZ (map h l).
Proof. intros H. induction l as [|x l IH]; simpl; [lia | specialize (H x); lia]. Qed.

Lemma sumZ_map_zero {A : Type} (f : A -> Z) (l : list A) :
  (forall x, f x = 0) -> sumZ (map f l) = 0.
Proof. intros H. induction l as [|x l IH]; simpl; [reflexivity | rewrite H, IH; reflexivity]. Qed.

Lemma sum_indicator_seq (v : Z) (lo n : nat) :
  sumZ (map (fun j => if v =? Z.of_nat j then 1 else 0) (seq lo n))
  = if (Z.of_nat lo <=? v) && (v <? Z.of_nat (lo + n)) then 1 else 0.
Proof.
  revert lo. induction n as [|n IH]; intros lo; simpl.
  - destruct (Z.leb_spec (Z.of_nat lo) v), (Z.ltb_spec v (Z.of_nat (lo + 0))); simpl; lia.
  - rewrite IH.
    destruct (Z.eqb_spec v (Z.of_nat lo)),
      (Z.leb_spec (Z.of_nat (S lo)) v), (Z.ltb_spec v (Z.of_nat (S lo + n))),
      (Z.leb_spec (Z.of_nat lo) v), (Z.ltb_spec v (Z.of_nat (lo + S n))); simpl; lia.
Qed.

Lemma sum_buckets (g : Word) (sols : list Word) :
  sumZ (map (bucketb g sols) feedbackIdRange) = Z.of_nat (length sols).
Proof.
  unfold feedbackIdRange. rewrite map_map.
  induction sols as [|s sols IH].
  - unfold bucketb. cbn [filter length Z.of_nat]. now apply sumZ_map_zero.
  - rewrite (map_ext _ (fun j => (if keyOf g s =? Z.of_nat j then 1 else 0)
                                 + bucketb g sols (Z.of_nat j))).
    + rewrite sumZ_map_add, IH, sum_indicator_seq.
      pose proof (keyOf_range g s) as Hk. change MAX_FEEDBACK_ID with 682 in *.
      destruct (Z.leb_spec (Z.of_nat 0) (keyOf g s)),
        (Z.ltb_spec (keyOf g s) (Z.of_nat (0 + Z.to_nat (682 + 1)))); cbn [andb length]; lia.
    + intros j. unfold bucketb. cbn [filter].
      destruct (keyOf g s =? Z.of_nat j); cbn [length]; lia.
Qed.

Lemma sumSquares_nonneg (g : Word) (sols : list Word) :
  0 <= sumZ (map (fun k => bucketb g sols k * bucketb g sols k) feedbackIdRange).
Proof.
  rewrite <- (sumZ_map_zero (fun _ : Z => 0) feedbackIdRange (fun _ => eq_refl)).
  apply sumZ_map_le. intros k. nia.
Qed.

Lemma length_le_sumSquares (g : Word) (sols : list Word) :
  Z.of_nat (length sols)
  <= sumZ (map (fun k => bucketb g sols k * bucketb g sols k) feedbackIdRange).
Proof.
  rewrite <- (sum_buckets g sols). apply sumZ_map_le. intros k.
  pose proof (bucketb_le g sols k). nia.
Qed.

(** ** The choice among the scored guesses *)

Lemma selectBest_ok (game : WordleGame) (score : Word -> Z) (gs : list Word)
    (least : Z) (best : Word) :
  (forall g, In g gs -> scoreGuess game g = Ok (score g, game)) ->
  selectBest game gs least best = Ok (pickBest score gs least best, game).
Proof.
  revert least best. induction gs as [|g gs IH]; intros least best H;
    cbn [selectBest pickBest].
  - reflexivity.
  - rewrite (H g (or_introl eq_refl)). cbn [bind].
    destruct ((score g <? least) || (least <? 0)); apply IH; intros; apply H; now right.
Qed.

Lemma pickBest_nonneg (score : Word -> Z) (gs : list Word) (least : Z) (best : Word) :
  (forall g, In g gs -> 0 <= score g) -> 0 <= least ->
  (pickBest score gs least best = (least, best) /\
   forall g, In g gs -> least <= score g)
  \/
  (exists pre w post,
     gs = pre ++ w :: post /\
     pickBest score gs least best = (score w, w) /\
     score w < least /\
     (forall g, In g pre -> score w < score g) /\
     (forall g, In g post -> score w <= score g)).
Proof.
  revert least best. induction gs as [|g gs IH]; intros least best Hpos Hleast;
    cbn [pickBest].
  - left. split; [reflexivity | intros g []].
  - assert (Hg : 0 <= score g) by (apply Hpos; now left).
    assert (Hgs : forall g', In g' gs -> 0 <= score g') by (intros; apply Hpos; now right).
    destruct (Z.ltb_spec least 0) as [?|_]; [lia|]. rewrite orb_false_r.
    destruct (Z.ltb_spec (score g) least) as [Hlt|Hge].
    + right. destruct (IH (score g) g Hgs Hg) as [[E Hall] | (pre & w & post & E1 & E2 & Hw & Hpre & Hpost)].
      * exists [], g, gs. repeat split; auto. intros g' [].
      * exists (g :: pre), w, post. subst gs. repeat split; auto; try lia.
        intros g' [<-|Hin]; [lia | now apply Hpre].
    + destruct (IH least best Hgs Hleast) as [[E Hall] | (pre & w & post & E1 & E2 & Hw & Hpre & Hpost)].
      * left. split; [exact E|]. intros g' [<-|Hin]; [lia | now apply Hall].
      * right. exists (g :: pre), w, post. subst gs. repeat split; auto.
        intros g' [<-|Hin]; [lia | now apply Hpre].
Qed.

(** From the initial [leastPossibleSolutions = -1]: the first guess of minimal
    score. *)
Lemma pickBest_first_min (score : Word -> Z) (gs : list Word) (best : Word) :
  (forall g, In g gs -> 0 <= score g) -> gs <> [] ->
  exists pre w post,
    gs = pre ++ w :: post /\
    pickBest score gs (-1) best = (score w, w) /\
    (forall g, In g pre -> score w < score g) /\
    (forall g, In g post -> score w <= score g).
Proof.
  intros Hpos Hne. destruct gs as [|g gs]; [congruence|]. cbn [pickBest].
  replace ((score g <? -1) || (-1 <? 0)) with true by (now rewrite orb_true_r).
  assert (Hg : 0 <= score g) by (apply Hpos; now left).
  assert (Hgs : forall g', In g' gs -> 0 <= score g') by (intros; apply Hpos; now right).
  destruct (pickBest_nonneg score gs (score g) g Hgs Hg)
    as [[E Hall] | (pre & w & post & E1 & E2 & Hw & Hpre & Hpost)].
  - exists [], g, gs. repeat split; auto. intros g' [].
  - exists (g :: pre), w, post. subst gs. repeat split; auto.
    intros g' [<-|Hin]; [lia | now apply Hpre].
Qed.

(** ** getGuess with a non-empty stack *)

Lemma getGuess_nonempty (game : WordleGame) :
  Game_inv game -> feedbacks game <> [] ->
  getGuess game =
    (bestGuess <- vec_at (guessWords game) 0 ;;
     let num := wrap32 (Z.of_nat (length (candidates game))) in
     let out := if num <? 100
                then "POSSIBLE SOLUTIONS: " :: map toString (candidates game)
                else [] in
     match (if num <=? 2 then hd_error (candidates game) else None) with
     | Some possibleSolution => Ok (possibleSolution, game, out)
     | None =>
         r <- selectBest game (guessWords game) (-1) bestGuess ;;
         let '(_, best, game') := r in
         Ok (best, game', out)
     end).
Proof.
  intros Hinv Hne. unfold getGuess.
  destruct (feedbacks game) as [|gf fbs] eqn:Efbs; [congruence|].
  cbn [length Nat.eqb]. rewrite <- Efbs in *. clear Efbs gf fbs.
  destruct (vec_at (guessWords game) 0) as [bestGuess| |]; cbn [bind]; try reflexivity.
  pose proof (inv_feedbacks game Hinv) as Hf. pose proof (inv_answers game Hinv) as Ha.
  pose proof (countPossibleSolutions_ok game Hf (answerWords game) 0 Ha) as Hc.
  rewrite (wrap32_small 0), Z.add_0_l in Hc by (unfold INT32_MAX; lia).
  rewrite Hc. cbn [bind]. rewrite <- (candidates_ok game Hinv). cbv zeta.
  destruct (wrap32 (Z.of_nat (length (candidates game))) <? 100).
  - rewrite (printPossibleSolutions_ok game Hf _ _ Ha). cbn [bind app].
    rewrite <- (candidates_ok game Hinv).
    destruct (wrap32 (Z.of_nat (length (candidates game))) <=? 2); cbn [bind].
    + rewrite (firstPossibleSolution_ok game Hf _ Ha). cbn [bind].
      rewrite <- (candidates_ok game Hinv). reflexivity.
    + reflexivity.
  - cbn [bind].
    destruct (wrap32 (Z.of_nat (length (candidates game))) <=? 2); cbn [bind].
    + rewrite (firstPossibleSolution_ok game Hf _ Ha). cbn [bind].
      rewrite <- (candidates_ok game Hinv). reflexivity.
    + reflexivity.
Qed.

Lemma guessWords_nonempty (game : WordleGame) :
  Game_inv game -> candidates game <> [] ->
  exists w rest, guessWords game = w :: rest.
Proof.
  intros Hinv Hc. destruct (inv_incl game Hinv) as [gl Hgl].
  destruct (guessWords game) as [|w rest] eqn:E; [|eauto].
  exfalso. apply Hc. symmetry in Hgl. apply app_eq_nil in Hgl as [_ Ha].
  unfold candidates. now rewrite Ha.
Qed.

(** * The claims *)

(** ** Outcome computation *)

(** C3, as the specification states it, does not hold: "apple" against
    "angle" does not yield CORRECT, CORRECT, ABSENT, PRESENT_ELSEWHERE,
    CORRECT. *)
Lemma computeFeedback_apple_angle_not_as_claimed :
  (g <- Word_ctor "apple" ;; s <- Word_ctor "angle" ;;
   gf <- computeFeedback g s ;; Ok (feedback gf))
  <> Ok [FEEDBACK_IN_POSITION; FEEDBACK_IN_POSITION; FEEDBACK_NOT_IN_WORD;
         FEEDBACK_IN_WORD; FEEDBACK_IN_POSITION].
Proof. vm_compute. discriminate. Qed.

(** C3 (amended): [computeFeedbackId] applied to the guess "apple" and the
    solution "angle" yields the key 642, whose per-position outcome array is
    CORRECT_POSITION, ABSENT, ABSENT, CORRECT_POSITION, CORRECT_POSITION. *)
Theorem computeFeedback_apple_angle :
  (g <- Word_ctor "apple" ;; s <- Word_ctor "angle" ;; computeFeedbackId g s) = Ok 642
  /\ (g <- Word_ctor "apple" ;; s <- Word_ctor "angle" ;;
      gf <- computeFeedback g s ;; Ok (feedback gf))
     = Ok [FEEDBACK_IN_POSITION; FEEDBACK_NOT_IN_WORD; FEEDBACK_NOT_IN_WORD;
           FEEDBACK_IN_POSITION; FEEDBACK_IN_POSITION].
Proof. split; vm_compute; reflexivity. Qed.

(** C4: an array of five outcome codes, each ABSENT, PRESENT_ELSEWHERE or
    CORRECT_POSITION, packed into a key with 2 bits per position (position i
    at bit offset 2*i) and decoded by the constructor
    [GuessFeedback(Word, feedbackId)], is reproduced identically. *)
Theorem pack_decode_roundtrip (w : Word) (codes : list Z) :
  length codes = WORD_LENGTH ->
  Forall valid_code codes ->
  feedback (GuessFeedback_of_id w (packKey codes)) = codes.
Proof.
  intros Hlen Hv. rewrite feedback_of_id_unpack. now apply unpack_pack.
Qed.

Lemma pack_decode_roundtrip_witness :
  feedback (GuessFeedback_of_id (word_of "apple")
              (packKey [FEEDBACK_IN_POSITION; FEEDBACK_NOT_IN_WORD; FEEDBACK_IN_WORD;
                        FEEDBACK_IN_POSITION; FEEDBACK_NOT_IN_WORD]))
  = [FEEDBACK_IN_POSITION; FEEDBACK_NOT_IN_WORD; FEEDBACK_IN_WORD;
     FEEDBACK_IN_POSITION; FEEDBACK_NOT_IN_WORD].
Proof.
  apply (pack_decode_roundtrip (word_of "apple")).
  - reflexivity.
  - repeat (apply Forall_cons; [unfold valid_code; auto|]). apply Forall_nil.
Defined.

(** C2: for all Words g and s, the feedback decoded from
    [computeFeedbackId(g, s)] against g is consistent with s. *)
Theorem solution_consistent_with_own_feedback (g s : Word) :
  IsWord g -> IsWord s ->
  exists feedbackId,
    computeFeedbackId g s = Ok feedbackId /\
    isConsistentWith (GuessFeedback_of_id g feedbackId) s = Ok true.
Proof.
  intros Hg Hs. apply IsWord_ok in Hg, Hs.
  exists (keyOf g s). split; [now apply computeFeedbackId_ok|].
  rewrite (isConsistentWith_ok _ s Hs (guess_ok_of_id g _ Hg)). f_equal.
  unfold keyOf.
  rewrite (consistentb_decoded g s (codesOf g s) Hg Hs
             (codesOf_length g s) (codesOf_valid g s)).
  apply Z.eqb_refl.
Qed.

Lemma IsWord_word_of (wordString : string) (w : Word) :
  Word_ctor wordString = Ok w -> IsWord (word_of wordString).
Proof. intros H. exists wordString. unfold word_of. now rewrite H. Qed.

Lemma solution_consistent_with_own_feedback_witness :
  exists feedbackId,
    computeFeedbackId (word_of "apple") (word_of "angle") = Ok feedbackId /\
    isConsistentWith (GuessFeedback_of_id (word_of "apple") feedbackId) (word_of "angle")
    = Ok true.
Proof.
  apply (solution_consistent_with_own_feedback (word_of "apple") (word_of "angle")).
  - exists "apple". vm_compute. reflexivity.
  - exists "angle". vm_compute. reflexivity.
Defined.

(** C10: for all Words g and s, [computeFeedbackId(g, s)] lies between 0 and
    MAX_FEEDBACK_ID, each of its 2-bit fields is 0, 1 or 2, and it indexes a
    table of MAX_FEEDBACK_ID + 1 counts within bounds. *)
Theorem computeFeedbackId_in_bounds (g s : Word) :
  IsWord g -> IsWord s ->
  exists feedbackId,
    computeFeedbackId g s = Ok feedbackId /\
    0 <= feedbackId <= MAX_FEEDBACK_ID /\
    (forall i : nat, valid_code (Z.land (Z.shiftr feedbackId (2 * Z.of_nat i)) 3)) /\
    (forall feedbackIdCounts : list Z,
       length feedbackIdCounts = Z.to_nat (MAX_FEEDBACK_ID + 1) ->
       exists c, vec_at feedbackIdCounts feedbackId = Ok c).
Proof.
  intros Hg Hs. apply IsWord_ok in Hg, Hs.
  exists (keyOf g s). pose proof (keyOf_range g s) as Hk.
  split; [now apply computeFeedbackId_ok|]. split; [exact Hk|]. split.
  - intros i. destruct (Nat.lt_ge_cases i WORD_LENGTH) as [Hi|Hi].
    + pose proof (unpack_pack (codesOf g s) (codesOf_length g s) (codesOf_valid g s)) as E.
      fold (keyOf g s) in E.
      assert (Hn : nth i (unpackKey (keyOf g s)) 0
                   = Z.land (Z.shiftr (keyOf g s) (2 * Z.of_nat i)) 3).
      { unfold unpackKey.
        rewrite (nth_indep _ 0 (Z.land (Z.shiftr (keyOf g s) (2 * Z.of_nat 0)) 3))
          by (rewrite length_map, length_seq; exact Hi).
        rewrite (map_nth (fun i => Z.land (Z.shiftr (keyOf g s) (2 * Z.of_nat i)) 3)).
        now rewrite seq_nth by exact Hi. }
      rewrite <- Hn, E.
      pose proof (codesOf_valid g s) as Hv. rewrite Forall_forall in Hv.
      apply Hv. apply nth_In. rewrite codesOf_length. exact Hi.
    + left. change MAX_FEEDBACK_ID with 682 in Hk. unfold WORD_LENGTH in Hi.
      rewrite Z.shiftr_div_pow2 by lia.
      rewrite Z.div_small; [reflexivity|].
      split; [lia|]. apply Z.le_lt_trans with 682; [lia|].
      apply Z.lt_le_trans with (2 ^ 10); [reflexivity|].
      apply Z.pow_le_mono_r; lia.
  - intros counts Hlen. unfold vec_at.
    destruct (Z.ltb_spec (keyOf g s) 0); [lia|].
    destruct (nth_error counts (Z.to_nat (keyOf g s))) as [c|] eqn:E; [eauto|].
    apply nth_error_None in E. change MAX_FEEDBACK_ID with 682 in *. lia.
Qed.

Lemma computeFeedbackId_in_bounds_witness :
  exists feedbackId,
    computeFeedbackId (word_of "apple") (word_of "angle") = Ok feedbackId /\
    0 <= feedbackId <= MAX_FEEDBACK_ID /\
    (forall i : nat, valid_code (Z.land (Z.shiftr feedbackId (2 * Z.of_nat i)) 3)) /\
    (forall feedbackIdCounts : list Z,
       length feedbackIdCounts = Z.to_nat (MAX_FEEDBACK_ID + 1) ->
       exists c, vec_at feedbackIdCounts feedbackId = Ok c).
Proof.
  apply (computeFeedbackId_in_bounds (word_of "apple") (word_of "angle")).
  - exists "apple". vm_compute. reflexivity.
  - exists "angle". vm_compute. reflexivity.
Defined.

(** ** The first round *)

(** C8: with an empty feedback stack [getGuess] returns the word "roate",
    whatever the vocabularies are; the game is untouched and nothing is
    printed. *)
Theorem getGuess_first_round (game : WordleGame) :
  feedbacks game = [] ->
  Word_ctor "roate" = Ok (word_of "roate") /\
  toString (word_of "roate") = "roate" /\
  getGuess game = Ok (word_of "roate", game, []).
Proof.
  intros Hempty.
  assert (Hroate : Word_ctor "roate" = Ok (word_of "roate")) by (vm_compute; reflexivity).
  split; [exact Hroate|]. split; [vm_compute; reflexivity|].
  unfold getGuess. rewrite Hempty. cbn [length Nat.eqb].
  rewrite Hroate. reflexivity.
Qed.

Lemma getGuess_first_round_witness :
  Word_ctor "roate" = Ok (word_of "roate") /\
  toString (word_of "roate") = "roate" /\
  getGuess (WordleGame_ctor [word_of "nnnnn"] [word_of "apple"; word_of "angle"])
  = Ok (word_of "roate",
        WordleGame_ctor [word_of "nnnnn"] [word_of "apple"; word_of "angle"], []).
Proof.
  apply (getGuess_first_round
           (WordleGame_ctor [word_of "nnnnn"] [word_of "apple"; word_of "angle"])).
  reflexivity.
Defined.

(** ** Feedback lines *)

Lemma fill_str_result (gs fs : string) (idxs : list nat) (gf0 : GuessFeedback) :
  if forallb (fun i => feedback_char (string_at fs i)) idxs
  then exists gf, GuessFeedback_fill_str gs fs idxs gf0 = Ok gf
  else GuessFeedback_fill_str gs fs idxs gf0 = Throw "Invalid feedback code".
Proof.
  revert gf0. induction idxs as [|i idxs IH]; intros gf0;
    cbn [forallb GuessFeedback_fill_str].
  - eauto.
  - unfold feedback_char at 1. cbv zeta.
    destruct (Ascii.eqb (string_at fs i) "r"); cbn [orb andb bind]; [apply IH|].
    destruct (Ascii.eqb (string_at fs i) "y"); cbn [orb andb bind]; [apply IH|].
    destruct (Ascii.eqb (string_at fs i) "g"); cbn [orb andb bind]; [apply IH|].
    reflexivity.
Qed.

Lemma list_of_string_at (s : string) :
  list_ascii_of_string s = map (string_at s) (seq 0 (String.length s)).
Proof.
  induction s as [|c s IH]; [reflexivity|].
  cbn [list_ascii_of_string String.length seq map]. f_equal.
  rewrite <- seq_shift, map_map. exact IH.
Qed.

Lemma forallb_map_comp {A B : Type} (f : B -> bool) (h : A -> B) (l : list A) :
  forallb f (map h l) = forallb (fun x => f (h x)) l.
Proof. induction l as [|x l IH]; simpl; [|rewrite IH]; reflexivity. Qed.

Lemma forallb_false_witness {A : Type} (f : A -> bool) (l : list A) :
  forallb f l = false -> exists x, In x l /\ f x = false.
Proof.
  induction l as [|x l IH]; simpl; [discriminate|].
  destruct (f x) eqn:E; simpl.
  - intros H. destruct (IH H) as (y & Hy & Hf). eauto.
  - intros _. eauto.
Qed.

Lemma feedback_char_false (c : ascii) :
  feedback_char c = false <-> c <> "r"%char /\ c <> "y"%char /\ c <> "g"%char.
Proof.
  unfold feedback_char. rewrite !orb_false_iff, !Ascii.eqb_neq. tauto.
Qed.

(** C9: the constructor of [GuessFeedback] from a guess string and a
    feedback string throws exactly when one of the strings has a length other
    than 5 or a feedback character is not r, y or g (and otherwise it
    succeeds); when it throws in the prompt loop, "Invalid feedback!" is
    printed, the loop prompts again and the game, with its stack, is the one
    before. *)
Theorem invalid_feedback_rejected (guessString line : string) :
  ((exists what, GuessFeedback_of_strings guessString line = Throw what) <->
   (String.length guessString <> WORD_LENGTH \/
    String.length line <> WORD_LENGTH \/
    exists c, In c (list_ascii_of_string line) /\
              c <> "r"%char /\ c <> "y"%char /\ c <> "g"%char)) /\
  ((exists what, GuessFeedback_of_strings guessString line = Throw what) \/
   (exists gf, GuessFeedback_of_strings guessString line = Ok gf)) /\
  (forall (game : WordleGame) (guess : Word) (stdin out : list string),
     toString guess = guessString ->
     (exists what, GuessFeedback_of_strings guessString line = Throw what) ->
     promptStep game guess line
     = Ok (game, ["feedback: "; "Invalid feedback!"], false) /\
     promptFeedback game guess (line :: stdin) out
     = promptFeedback game guess stdin (out ++ ["feedback: "; "Invalid feedback!"])).
Proof.
  assert (Hcases :
    (String.length guessString <> WORD_LENGTH /\
     GuessFeedback_of_strings guessString line = Throw "Invalid guess length") \/
    (String.length guessString = WORD_LENGTH /\ String.length line <> WORD_LENGTH /\
     GuessFeedback_of_strings guessString line = Throw "Invalid feedback length") \/
    (String.length guessString = WORD_LENGTH /\ String.length line = WORD_LENGTH /\
     forallb feedback_char (list_ascii_of_string line) = false /\
     GuessFeedback_of_strings guessString line = Throw "Invalid feedback code") \/
    (String.length guessString = WORD_LENGTH /\ String.length line = WORD_LENGTH /\
     forallb feedback_char (list_ascii_of_string line) = true /\
     exists gf, GuessFeedback_of_strings guessString line = Ok gf)).
  { unfold GuessFeedback_of_strings.
    destruct (Nat.eqb_spec (String.length guessString) WORD_LENGTH) as [Hg|Hg];
      cbn [negb]; [|now left].
    destruct (Nat.eqb_spec (String.length line) WORD_LENGTH) as [Hl|Hl];
      cbn [negb]; [|right; left; auto].
    right. right.
    pose proof (fill_str_result guessString line (seq 0 WORD_LENGTH) GuessFeedback_fresh) as H.
    rewrite list_of_string_at, forallb_map_comp, Hl.
    destruct (forallb _ (seq 0 WORD_LENGTH)); [right | left]; auto. }
  split; [|split].
  - split.
    + intros [what Hthrow].
      destruct Hcases as [(Hg & _) | [(_ & Hl & _) | [(_ & _ & Hbad & _) | (_ & _ & _ & gf & Hok)]]].
      * now left.
      * right. now left.
      * right. right. apply forallb_false_witness in Hbad as (c & Hin & Hc).
        exists c. split; [exact Hin | now apply feedback_char_false].
      * congruence.
    + intros Hbad.
      destruct Hcases as [(_ & E) | [(_ & _ & E) | [(_ & _ & _ & E) | (Hg & Hl & Hall & _)]]];
        eauto.
      exfalso. destruct Hbad as [Hbad | [Hbad | (c & Hin & Hc)]]; try contradiction.
      rewrite forallb_forall in Hall. apply feedback_char_false in Hc.
      rewrite (Hall c Hin) in Hc. discriminate.
  - destruct Hcases as [(_ & E) | [(_ & _ & E) | [(_ & _ & _ & E) | (_ & _ & _ & E)]]];
      eauto.
  - intros game guess stdin out Hguess [what Hthrow].
    assert (Hstep : promptStep game guess line
                    = Ok (game, ["feedback: "; "Invalid feedback!"], false)).
    { unfold promptStep. rewrite Hguess, Hthrow. reflexivity. }
    split; [exact Hstep|].
    cbn [promptFeedback]. rewrite Hstep. reflexivity.
Qed.

Lemma invalid_feedback_rejected_witness :
  promptStep game3 (word_of "apple") "rygxg"
  = Ok (game3, ["feedback: "; "Invalid feedback!"], false) /\
  promptFeedback game3 (word_of "apple") ["rygxg"; "rrgrg"] []
  = promptFeedback game3 (word_of "apple") ["rrgrg"] ["feedback: "; "Invalid feedback!"].
Proof.
  destruct (invalid_feedback_rejected "apple" "rygxg") as (Hiff & _ & Hloop).
  apply (Hloop game3 (word_of "apple") ["rrgrg"] []).
  - vm_compute. reflexivity.
  - apply Hiff. right. right. exists "x"%char.
    split; [simpl; tauto | repeat split; discriminate].
Defined.

(** ** Scores on engine states *)

Lemma scoreGuess_accumulated (game : WordleGame) (g : Word) :
  Game_inv game -> Word_ok g ->
  Z.of_nat (length (candidates game)) <= INT32_MAX ->
  scoreGuess game g = Ok (accumulated game g, game) /\
  accumulated game g = wrap32 (sumSquares g (candidates game)).
Proof.
  intros Hinv Hg Hfit.
  pose proof (scoreGuess_wrap game Hinv g Hg) as H.
  rewrite <- (candidates_ok game Hinv) in H. specialize (H Hfit).
  rewrite <- (sumSquares_ok g _ Hg (candidates_words game Hinv)) in H.
  unfold accumulated. rewrite H. auto.
Qed.

Lemma sumSquares_bounds (game : WordleGame) (g : Word) :
  Game_inv game -> Word_ok g ->
  0 <= sumSquares g (candidates game) /\
  Z.of_nat (length (candidates game)) <= sumSquares g (candidates game).
Proof.
  intros Hinv Hg.
  rewrite (sumSquares_ok g _ Hg (candidates_words game Hinv)).
  split; [apply sumSquares_nonneg | apply length_le_sumSquares].
Qed.

Lemma sumZ_squares_le {A : Type} (f : A -> Z) (l : list A) :
  (forall x, 0 <= f x) ->
  0 <= sumZ (map f l) /\
  sumZ (map (fun x => f x * f x) l) <= sumZ (map f l) * sumZ (map f l).
Proof.
  intros Hpos. induction l as [|x l [IH0 IH]]; simpl; [lia|].
  specialize (Hpos x). nia.
Qed.

(** With at most 46340 candidates no sum of squares exceeds INT32_MAX. *)
Lemma few_candidates_fit (game : WordleGame) :
  Game_inv game ->
  Z.of_nat (length (candidates game)) <= 46340 ->
  Forall (fun g => sumSquares g (candidates game) <= INT32_MAX) (guessWords game).
Proof.
  intros Hinv Hlen. pose proof (inv_guesses game Hinv) as Hwords.
  rewrite Forall_forall in *. intros g Hin0.
  rewrite (sumSquares_ok g _ (Hwords g Hin0) (candidates_words game Hinv)).
  destruct (sumZ_squares_le (bucketb g (candidates game)) feedbackIdRange) as [_ H].
  { intros k. apply bucketb_le. }
  rewrite sum_buckets in H. unfold INT32_MAX. nia.
Qed.

Lemma scoreGuess_fits (game : WordleGame) (g : Word) :
  Game_inv game -> Word_ok g ->
  sumSquares g (candidates game) <= INT32_MAX ->
  scoreGuess game g = Ok (sumSquares g (candidates game), game).
Proof.
  intros Hinv Hg Hfit.
  destruct (sumSquares_bounds game g Hinv Hg) as [H0 Hlen].
  destruct (scoreGuess_accumulated game g Hinv Hg ltac:(lia)) as [H1 H2].
  rewrite H1, H2, wrap32_small by lia. reflexivity.
Qed.

Lemma vec_at_head {A : Type} (x : A) (l : list A) : vec_at (x :: l) 0 = Ok x.
Proof. reflexivity. Qed.

Lemma FirstMinimal_ext (score score' : Word -> Z) (gs : list Word) (w : Word) :
  (forall g, In g gs -> score g = score' g) ->
  FirstMinimal score gs w -> FirstMinimal score' gs w.
Proof.
  intros Hext (pre & post & E & Hpre & Hpost). exists pre, post.
  assert (Hw : In w gs) by (rewrite E; apply in_elt).
  split; [exact E|]. split; intros g Hin0.
  - rewrite <- (Hext w Hw), <- (Hext g); [now apply Hpre|].
    rewrite E. apply in_or_app. now left.
  - rewrite <- (Hext w Hw), <- (Hext g); [now apply Hpost|].
    rewrite E. apply in_or_app. right. now right.
Qed.

Lemma FirstMinimal_minimal (score : Word -> Z) (gs : list Word) (w : Word) :
  FirstMinimal score gs w -> In w gs /\ forall g, In g gs -> score w <= score g.
Proof.
  intros (pre & post & E & Hpre & Hpost). subst gs. split; [apply in_elt|].
  intros g Hin0. apply in_app_or in Hin0 as [Hin0 | [<- | Hin0]].
  - specialize (Hpre g Hin0). lia.
  - lia.
  - now apply Hpost.
Qed.

(** The full search, when no score exceeds INT32_MAX. *)
Lemma getGuess_full_search (game : WordleGame) :
  Game_inv game -> feedbacks game <> [] -> guessWords game <> [] ->
  length (candidates game) <> 1%nat -> length (candidates game) <> 2%nat ->
  Forall (fun g => sumSquares g (candidates game) <= INT32_MAX) (guessWords game) ->
  exists best out,
    getGuess game = Ok (best, game, out) /\
    FirstMinimal (fun g => sumSquares g (candidates game)) (guessWords game) best.
Proof.
  intros Hinv Hne Hgs H1 H2 Hfit.
  pose proof (inv_guesses game Hinv) as Hwords.
  rewrite Forall_forall in Hfit, Hwords.
  rewrite (getGuess_nonempty game Hinv Hne).
  destruct (guessWords game) as [|w0 rest] eqn:Egs; [congruence|].
  rewrite vec_at_head. cbn [bind]. cbv zeta.
  assert (Hscore : forall g, In g (w0 :: rest) ->
            scoreGuess game g = Ok (sumSquares g (candidates game), game)).
  { intros g Hin0. apply scoreGuess_fits; auto. }
  rewrite (selectBest_ok game (fun g => sumSquares g (candidates game)) _ _ _ Hscore).
  cbn [bind].
  destruct (pickBest_first_min (fun g => sumSquares g (candidates game)) (w0 :: rest) w0)
    as (pre & best & post & E & Epick & Hpre & Hpost).
  { intros g Hin0. apply (sumSquares_bounds game g Hinv). now apply Hwords. }
  { discriminate. }
  rewrite Epick.
  assert (Hlen : Z.of_nat (length (candidates game)) <= INT32_MAX).
  { pose proof (sumSquares_bounds game w0 Hinv (Hwords w0 (or_introl eq_refl))) as [_ Hle].
    specialize (Hfit w0 (or_introl eq_refl)). lia. }
  assert (Hsel : (if wrap32 (Z.of_nat (length (candidates game))) <=? 2
                  then hd_error (candidates game) else None) = None).
  { clear - H1 H2 Hlen.
    destruct (candidates game) as [|c1 [|c2 [|c3 cs]]]; cbn [length] in *;
      try congruence.
    - now destruct (_ <=? 2).
    - rewrite wrap32_small by (unfold INT32_MAX in *; lia).
      destruct (Z.leb_spec (Z.of_nat (S (S (S (length cs))))) 2); [lia | reflexivity]. }
  rewrite Hsel.
  eexists best, _. split; [reflexivity|].
  exists pre, post. auto.
Qed.

Lemma score_no_candidates (game : WordleGame) (g : Word) :
  Game_inv game -> candidates game = [] -> Word_ok g ->
  scoreGuess game g = Ok (0, game).
Proof.
  intros Hinv Hnone Hg.
  assert (Hzero : sumSquares g (candidates game) = 0).
  { rewrite Hnone. apply sumZ_map_zero. intros k. reflexivity. }
  rewrite <- Hzero. apply scoreGuess_fits; auto.
  rewrite Hzero. unfold INT32_MAX. lia.
Qed.

(** ** The guess with few or no candidates *)

(** C5: with a non-empty stack and exactly 1 or 2 solution words consistent
    with it, [getGuess] returns the first of them in solution-vocabulary
    order, without searching the guess vocabulary; the game is unchanged and
    the candidates were printed. *)
Theorem getGuess_few_candidates (game : WordleGame) :
  EngineState game ->
  feedbacks game <> [] ->
  length (candidates game) = 1%nat \/ length (candidates game) = 2%nat ->
  exists first rest,
    candidates game = first :: rest /\
    getGuess game
    = Ok (first, game, "POSSIBLE SOLUTIONS: " :: map toString (candidates game)).
Proof.
  intros Hst Hne Hlen. pose proof (EngineState_inv game Hst) as Hinv.
  destruct (candidates game) as [|first rest] eqn:Ec;
    [cbn [length] in Hlen; destruct Hlen; discriminate|].
  destruct (guessWords_nonempty game Hinv) as (w0 & gs & Egs); [now rewrite Ec|].
  exists first, rest. split; [reflexivity|].
  rewrite (getGuess_nonempty game Hinv Hne), Egs, vec_at_head, Ec. cbn [bind].
  destruct Hlen as [-> | ->]; reflexivity.
Qed.

Lemma EngineState_small (gf : string) (gl al : list Word) :
  Forall IsWord gl -> Forall IsWord al ->
  (exists gf', GuessFeedback_of_strings (toString (word_of "roate")) gf = Ok gf') ->
  EngineState (pushFeedback (feedback_of "roate" gf) (WordleGame_ctor gl al)).
Proof.
  intros Hgl Hal [gf' Hgf]. apply state_push; [now apply state_ctor|].
  apply (ok_of_strings (word_of "roate") gf).
  - exists "roate". vm_compute. reflexivity.
  - unfold feedback_of.
    change (toString (word_of "roate")) with "roate" in Hgf. now rewrite Hgf.
Qed.

Lemma getGuess_few_candidates_witness :
  exists first rest,
    candidates game2 = first :: rest /\
    getGuess game2
    = Ok (first, game2, "POSSIBLE SOLUTIONS: " :: map toString (candidates game2)).
Proof.
  apply (getGuess_few_candidates game2).
  - apply EngineState_small.
    + repeat constructor. exists "nnnnn". vm_compute. reflexivity.
    + repeat constructor; [exists "apple" | exists "angle"]; vm_compute; reflexivity.
    + eexists. vm_compute. reflexivity.
  - discriminate.
  - right. vm_compute. reflexivity.
Defined.

(** In [game2] the two candidates are "apple" and "angle": [getGuess] returns
    "apple", while the search over the guess vocabulary would have kept
    "nnnnn", the first guess of minimal score. *)
Example getGuess_game2 :
  (r <- getGuess game2 ;; Ok (toString (fst (fst r)))) = Ok "apple" /\
  (r <- selectBest game2 (guessWords game2) (-1) (word_of "nnnnn") ;;
   Ok (toString (snd (fst r)))) = Ok "nnnnn".
Proof. split; vm_compute; reflexivity. Qed.

(** C6, as the specification states it, does not hold: in [game_empty], an
    engine state with a non-empty stack and no candidate, the guess
    vocabulary is empty and [getGuess] reads its element 0 (the initial
    value of bestGuess, line 243), which is undefined; no word is
    returned. *)
Lemma getGuess_no_candidates_empty_vocabulary :
  EngineState game_empty /\
  feedbacks game_empty <> [] /\
  candidates game_empty = [] /\
  guessWords game_empty = [] /\
  getGuess game_empty = Undefined /\
  ~ (exists first game' out, getGuess game_empty = Ok (first, game', out)).
Proof.
  assert (Hget : getGuess game_empty = Undefined) by (vm_compute; reflexivity).
  split.
  { apply EngineState_small; [constructor | constructor |].
    eexists. vm_compute. reflexivity. }
  split; [discriminate|]. split; [reflexivity|]. split; [reflexivity|].
  split; [exact Hget|].
  intros (first & game' & out & H). rewrite Hget in H. discriminate.
Qed.

(** C6 (amended): with a non-empty stack, a non-empty guess vocabulary and no
    solution word consistent with the stack, [getGuess] finds no possible
    solution to return early, the search gives every potential guess the
    score 0, and the first entry of the guess vocabulary is returned, the
    game left as it was. *)
Theorem getGuess_no_candidates (game : WordleGame) :
  EngineState game ->
  feedbacks game <> [] ->
  guessWords game <> [] ->
  candidates game = [] ->
  firstPossibleSolution game (answerWords game) = Ok None /\
  (forall g, In g (guessWords game) -> scoreGuess game g = Ok (0, game)) /\
  exists first rest,
    guessWords game = first :: rest /\
    getGuess game = Ok (first, game, ["POSSIBLE SOLUTIONS: "]).
Proof.
  intros Hst Hne Hgs Hnone. pose proof (EngineState_inv game Hst) as Hinv.
  pose proof (inv_guesses game Hinv) as Hwords. rewrite Forall_forall in Hwords.
  assert (Hscore : forall g, In g (guessWords game) -> scoreGuess game g = Ok (0, game)).
  { intros g Hin0. apply score_no_candidates; auto. }
  split; [|split; [exact Hscore|]].
  - rewrite (firstPossibleSolution_ok game (inv_feedbacks game Hinv) _ (inv_answers game Hinv)).
    now rewrite <- (candidates_ok game Hinv), Hnone.
  - rewrite (getGuess_nonempty game Hinv Hne), Hnone.
    destruct (guessWords game) as [|first rest] eqn:Egs; [congruence|].
    exists first, rest. split; [reflexivity|].
    rewrite vec_at_head. cbn [bind length hd_error map]. cbv zeta.
    change (wrap32 (Z.of_nat 0)) with 0. cbn [Z.ltb Z.leb Z.compare].
    rewrite (selectBest_ok game (fun _ => 0) _ _ _ Hscore). cbn [bind pickBest].
    cbn [Z.ltb Z.compare orb].
    destruct (pickBest_nonneg (fun _ => 0) rest 0 first)
      as [[E _] | (pre & w & post & _ & _ & Hlt & _)]; try lia.
    now rewrite E.
Qed.

Lemma getGuess_no_candidates_witness :
  firstPossibleSolution game0 (answerWords game0) = Ok None /\
  (forall g, In g (guessWords game0) -> scoreGuess game0 g = Ok (0, game0)) /\
  exists first rest,
    guessWords game0 = first :: rest /\
    getGuess game0 = Ok (first, game0, ["POSSIBLE SOLUTIONS: "]).
Proof.
  apply (getGuess_no_candidates game0).
  - apply EngineState_small.
    + repeat constructor. exists "nnnnn". vm_compute. reflexivity.
    + repeat constructor; [exists "apple" | exists "angle"]; vm_compute; reflexivity.
    + eexists. vm_compute. reflexivity.
  - discriminate.
  - discriminate.
  - vm_compute. reflexivity.
Defined.

(** ** The full search *)

(** A state in which the scores overflow. The guess list holds "bbbbb", the
    solution list 46341 times "aaaaa", and the first guess "roate" was
    answered "rrgrr": all 46341 solutions are candidates and every guess puts
    them into one bucket, so that each sum of squares is
    46341 * 46341 = 2147488281, above INT32_MAX = 2147483647. *)

Lemma IsWord_a : IsWord (word_of "aaaaa").
Proof. exists "aaaaa". vm_compute. reflexivity. Qed.

Lemma IsWord_b : IsWord (word_of "bbbbb").
Proof. exists "bbbbb". vm_compute. reflexivity. Qed.

Lemma many_pos : many = S (pred many).
Proof. unfold many. lia. Qed.

Lemma EngineState_many : EngineState game_many.
Proof.
  apply EngineState_small.
  - repeat constructor. apply IsWord_b.
  - apply Forall_forall. intros w Hw. apply repeat_spec in Hw as ->. apply IsWord_a.
  - eexists. vm_compute. reflexivity.
Qed.

Lemma guessWords_many :
  guessWords game_many = word_of "bbbbb" :: repeat (word_of "aaaaa") many.
Proof. reflexivity. Qed.

Lemma filter_repeat {A : Type} (p : A -> bool) (a : A) (n : nat) :
  filter p (repeat a n) = if p a then repeat a n else [].
Proof.
  induction n as [|n IH]; cbn [repeat filter]; [now destruct (p a)|].
  rewrite IH. now destruct (p a).
Qed.

Lemma sumZ_map_mul_r {A : Type} (f : A -> Z) (c : Z) (l : list A) :
  sumZ (map (fun x => f x * c) l) = sumZ (map f l) * c.
Proof. induction l as [|x l IH]; simpl; [reflexivity | rewrite IH; lia]. Qed.

(** Solutions that are all the same word fall into one bucket. *)
Lemma sumSquares_repeat (g a : Word) (n : nat) :
  Word_ok g -> Word_ok a ->
  sumSquares g (repeat a n) = Z.of_nat n * Z.of_nat n.
Proof.
  intros Hg Ha. rewrite sumSquares_ok; [|exact Hg|].
  2:{ apply Forall_forall. intros w Hw. now apply repeat_spec in Hw as ->. }
  rewrite (map_ext _ (fun k => (if keyOf g a =? k then 1 else 0)
                               * (Z.of_nat n * Z.of_nat n))).
  - rewrite sumZ_map_mul_r. unfold feedbackIdRange. rewrite map_map, sum_indicator_seq.
    pose proof (keyOf_range g a) as Hk. change MAX_FEEDBACK_ID with 682 in *.
    destruct (Z.leb_spec (Z.of_nat 0) (keyOf g a)),
      (Z.ltb_spec (keyOf g a) (Z.of_nat (0 + Z.to_nat (682 + 1)))); cbn [andb]; lia.
  - intros k. unfold bucketb. rewrite filter_repeat.
    destruct (keyOf g a =? k); [rewrite repeat_length | cbn [length]]; lia.
Qed.

Lemma candidates_many_eq : candidates game_many = repeat (word_of "aaaaa") many.
Proof.
  unfold candidates.
  change (answerWords game_many) with (repeat (word_of "aaaaa") many).
  rewrite filter_repeat.
  replace (possible game_many (word_of "aaaaa")) with true; [reflexivity|].
  unfold possible, isPossibleAnswer.
  change (feedbacks game_many) with [feedback_of "roate" "rrgrr"].
  vm_compute. reflexivity.
Qed.

Lemma many_Z : Z.of_nat many = 46341.
Proof. unfold many. lia. Qed.

Lemma candidates_many : Z.of_nat (length (candidates game_many)) = 46341.
Proof. rewrite candidates_many_eq, repeat_length. apply many_Z. Qed.

Lemma accumulated_many_word (g : Word) :
  IsWord g -> accumulated game_many g = -2147479015.
Proof.
  intros Hg. apply IsWord_ok in Hg.
  assert (Hfit : Z.of_nat (length (candidates game_many)) <= INT32_MAX).
  { rewrite candidates_many. unfold INT32_MAX. lia. }
  destruct (scoreGuess_accumulated game_many g
              (EngineState_inv _ EngineState_many) Hg Hfit) as [_ ->].
  rewrite candidates_many_eq.
  rewrite (sumSquares_repeat g _ many Hg (IsWord_ok _ IsWord_a)), many_Z.
  reflexivity.
Qed.

Lemma accumulated_many_a : accumulated game_many (word_of "aaaaa") = -2147479015.
Proof. apply accumulated_many_word, IsWord_a. Qed.

Lemma accumulated_many_b : accumulated game_many (word_of "bbbbb") = -2147479015.
Proof. apply accumulated_many_word, IsWord_b. Qed.

Lemma accumulated_many (g : Word) :
  In g (guessWords game_many) ->
  scoreGuess game_many g = Ok (-2147479015, game_many).
Proof.
  intros Hin0.
  assert (Hg : IsWord g).
  { rewrite guessWords_many in Hin0. destruct Hin0 as [<- | Hin0].
    - apply IsWord_b.
    - apply repeat_spec in Hin0 as ->. apply IsWord_a. }
  rewrite <- (accumulated_many_word g Hg).
  apply scoreGuess_accumulated.
  - apply EngineState_inv, EngineState_many.
  - now apply IsWord_ok.
  - rewrite candidates_many. unfold INT32_MAX. lia.
Qed.

(** When every score is negative the comparison with the sentinel keeps
    replacing the best guess: the last one is kept. *)
Lemma last_cons_indep {A : Type} (x : A) (l : list A) (d d' : A) :
  last (x :: l) d = last (x :: l) d'.
Proof.
  revert x. induction l as [|y l IH]; intros x; [reflexivity|].
  change (last (y :: l) d = last (y :: l) d'). apply IH.
Qed.

Lemma pickBest_negative (score : Word -> Z) (gs : list Word) (least : Z) (best : Word) :
  (forall g, In g gs -> score g < 0) -> least < 0 -> gs <> [] ->
  pickBest score gs least best = (score (last gs best), last gs best).
Proof.
  revert least best. induction gs as [|g gs IH]; intros least best Hneg Hleast Hne;
    [congruence|].
  cbn [pickBest].
  destruct (Z.ltb_spec least 0) as [_|?]; [|lia]. rewrite orb_true_r.
  destruct gs as [|g' gs']; [reflexivity|].
  rewrite IH; [| intros; apply Hneg; now right | apply Hneg; now left | discriminate].
  change (last (g :: g' :: gs') best) with (last (g' :: gs') best).
  now rewrite (last_cons_indep g' gs' g best).
Qed.

Lemma last_repeat {A : Type} (a b d : A) (n : nat) :
  last (b :: repeat a (S n)) d = a.
Proof.
  induction n as [|n IH]; [reflexivity|].
  cbn [repeat] in *. cbn [last] in *. exact IH.
Qed.

Lemma getGuess_many : getGuess game_many = Ok (word_of "aaaaa", game_many, []).
Proof.
  rewrite (getGuess_nonempty game_many (EngineState_inv _ EngineState_many))
    by discriminate.
  rewrite guessWords_many, vec_at_head, candidates_many. cbn [bind]. cbv zeta.
  change (wrap32 46341 <? 100) with false. change (wrap32 46341 <=? 2) with false.
  cbv iota.
  rewrite <- guessWords_many.
  rewrite (selectBest_ok game_many (fun _ => -2147479015) (guessWords game_many)
             (-1) (word_of "bbbbb") accumulated_many).
  cbn [bind]. rewrite guessWords_many.
  rewrite (pickBest_negative (fun _ : Word => -2147479015)
             (word_of "bbbbb" :: repeat (word_of "aaaaa") many) (-1) (word_of "bbbbb")
             (fun _ _ => eq_refl) eq_refl) by discriminate.
  rewrite many_pos, last_repeat. reflexivity.
Qed.

(** C1, as the specification states it, does not hold: in [game_many], a
    state with a non-empty stack and 46341 candidates, the score
    [getGuess] accumulates for the guess "aaaaa" is -2147479015, not the sum
    of squared bucket sizes. *)
Lemma score_overflows_int32 :
  EngineState game_many /\
  feedbacks game_many <> [] /\
  (3 <= length (candidates game_many))%nat /\
  In (word_of "aaaaa") (guessWords game_many) /\
  scoreGuess game_many (word_of "aaaaa") = Ok (-2147479015, game_many) /\
  scoreGuess game_many (word_of "aaaaa")
  <> Ok (sumSquares (word_of "aaaaa") (candidates game_many), game_many).
Proof.
  assert (Hin0 : In (word_of "aaaaa") (guessWords game_many)).
  { rewrite guessWords_many, many_pos. right. now left. }
  split; [apply EngineState_many|]. split; [discriminate|].
  split; [pose proof candidates_many; lia|]. split; [exact Hin0|].
  split; [now apply accumulated_many|].
  rewrite (accumulated_many _ Hin0). intros H.
  apply (f_equal (fun r => match r with Ok (n, _) => n | _ => 0 end)) in H.
  cbv beta iota in H.
  pose proof (sumSquares_bounds game_many (word_of "aaaaa")
                (EngineState_inv _ EngineState_many) (IsWord_ok _ IsWord_a)) as [H0 _].
  lia.
Qed.

(** C1 (amended): in every engine state with a non-empty stack and at least 3
    candidates in which no guess's sum of squared bucket sizes exceeds
    INT32_MAX, the score [getGuess] accumulates for each potential guess is
    that sum, over all feedback keys k, of the squared number of candidates s
    with [computeFeedbackId(g, s) = k], and [getGuess] returns a guess of the
    guess vocabulary that minimises it, leaving the game as it was. *)
Theorem getGuess_minimises_sum_of_squares (game : WordleGame) :
  EngineState game ->
  feedbacks game <> [] ->
  (3 <= length (candidates game))%nat ->
  Forall (fun g => sumSquares g (candidates game) <= INT32_MAX) (guessWords game) ->
  (forall g, In g (guessWords game) ->
     scoreGuess game g = Ok (sumSquares g (candidates game), game)) /\
  exists best out,
    getGuess game = Ok (best, game, out) /\
    In best (guessWords game) /\
    forall g, In g (guessWords game) ->
      sumSquares best (candidates game) <= sumSquares g (candidates game).
Proof.
  intros Hst Hne Hlen Hfit. pose proof (EngineState_inv game Hst) as Hinv.
  split.
  - intros g Hin0. pose proof (inv_guesses game Hinv) as Hwords.
    rewrite Forall_forall in Hfit, Hwords. apply scoreGuess_fits; auto.
  - destruct (guessWords_nonempty game Hinv) as (w0 & gs & Egs).
    { intros E. rewrite E in Hlen. cbn [length] in Hlen. lia. }
    destruct (getGuess_full_search game Hinv Hne) as (best & out & Hget & Hmin);
      try lia; try exact Hfit.
    { rewrite Egs. discriminate. }
    apply FirstMinimal_minimal in Hmin as [Hin0 Hmin]. eauto.
Qed.

Lemma EngineState_game3 : EngineState game3.
Proof.
  apply EngineState_small.
  - repeat constructor. exists "nnnnn". vm_compute. reflexivity.
  - repeat constructor; [exists "apple" | exists "angle" | exists "ample"];
      vm_compute; reflexivity.
  - eexists. vm_compute. reflexivity.
Defined.

Lemma game3_fits :
  Forall (fun g => sumSquares g (candidates game3) <= INT32_MAX) (guessWords game3).
Proof. repeat constructor; vm_compute; discriminate. Defined.

Lemma getGuess_minimises_sum_of_squares_witness :
  (forall g, In g (guessWords game3) ->
     scoreGuess game3 g = Ok (sumSquares g (candidates game3), game3)) /\
  exists best out,
    getGuess game3 = Ok (best, game3, out) /\
    In best (guessWords game3) /\
    forall g, In g (guessWords game3) ->
      sumSquares best (candidates game3) <= sumSquares g (candidates game3).
Proof.
  apply (getGuess_minimises_sum_of_squares game3).
  - apply EngineState_game3.
  - discriminate.
  - vm_compute. repeat constructor.
  - apply game3_fits.
Defined.

(** C7, as the specification states it, does not hold: in [game_many] the
    search is run, every guess accumulates the same score, and [getGuess]
    returns "aaaaa", the last word of the guess vocabulary, although "bbbbb"
    comes first. *)
Lemma first_minimal_fails_on_overflow :
  EngineState game_many /\
  feedbacks game_many <> [] /\
  (3 <= length (candidates game_many))%nat /\
  guessWords game_many = word_of "bbbbb" :: repeat (word_of "aaaaa") many /\
  (forall g, In g (guessWords game_many) -> accumulated game_many g = -2147479015) /\
  getGuess game_many = Ok (word_of "aaaaa", game_many, []) /\
  ~ (exists best out,
       getGuess game_many = Ok (best, game_many, out) /\
       FirstMinimal (accumulated game_many) (guessWords game_many) best).
Proof.
  assert (Hacc : forall g, In g (guessWords game_many) ->
            accumulated game_many g = -2147479015).
  { intros g Hin0. unfold accumulated. now rewrite (accumulated_many g Hin0). }
  split; [apply EngineState_many|]. split; [discriminate|].
  split; [pose proof candidates_many; lia|]. split; [apply guessWords_many|].
  split; [exact Hacc|]. split; [apply getGuess_many|].
  intros (best & out & Hget & pre & post & E & Hpre & _).
  rewrite getGuess_many in Hget.
  apply (f_equal (fun r => match r with Ok (w, _, _) => w | _ => Word_fresh end)) in Hget.
  cbv beta iota in Hget. subst best.
  rewrite guessWords_many in E. destruct pre as [|p pre].
  - apply (f_equal (fun l => toString (hd Word_fresh l))) in E.
    cbn [app hd] in E. vm_compute in E. discriminate.
  - apply (f_equal (hd Word_fresh)) in E. cbn [app hd] in E. subst p.
    specialize (Hpre (word_of "bbbbb") (or_introl eq_refl)).
    rewrite accumulated_many_a, accumulated_many_b in Hpre. lia.
Qed.

(** C7 (amended): in the full-search case (a non-empty stack, a non-empty
    guess vocabulary and a number of candidates other than 1 and 2), when no
    guess's sum of squared bucket sizes exceeds INT32_MAX, [getGuess] returns
    the first word, in guess-vocabulary order, among those of minimal
    accumulated score; the game is left as it was, so calling [getGuess]
    again returns the same result. *)
Theorem getGuess_first_minimal (game : WordleGame) :
  EngineState game ->
  feedbacks game <> [] ->
  guessWords game <> [] ->
  length (candidates game) <> 1%nat ->
  length (candidates game) <> 2%nat ->
  Forall (fun g => sumSquares g (candidates game) <= INT32_MAX) (guessWords game) ->
  exists best out,
    getGuess game = Ok (best, game, out) /\
    FirstMinimal (accumulated game) (guessWords game) best /\
    (r <- getGuess game ;; getGuess (snd (fst r))) = getGuess game.
Proof.
  intros Hst Hne Hgs H1 H2 Hfit. pose proof (EngineState_inv game Hst) as Hinv.
  destruct (getGuess_full_search game Hinv Hne Hgs H1 H2 Hfit)
    as (best & out & Hget & Hmin).
  exists best, out. split; [exact Hget|]. split.
  - apply (FirstMinimal_ext (fun g => sumSquares g (candidates game))); [|exact Hmin].
    intros g Hin0. pose proof (inv_guesses game Hinv) as Hwords.
    rewrite Forall_forall in Hfit, Hwords.
    unfold accumulated. now rewrite (scoreGuess_fits game g Hinv (Hwords g Hin0) (Hfit g Hin0)).
  - rewrite Hget. cbn [bind fst snd]. exact Hget.
Qed.

Lemma getGuess_first_minimal_witness :
  exists best out,
    getGuess game3 = Ok (best, game3, out) /\
    FirstMinimal (accumulated game3) (guessWords game3) best /\
    (r <- getGuess game3 ;; getGuess (snd (fst r))) = getGuess game3.
Proof.
  apply (getGuess_first_minimal game3).
  - apply EngineState_game3.
  - discriminate.
  - discriminate.
  - vm_compute. discriminate.
  - vm_compute. discriminate.
  - apply game3_fits.
Defined.

(** * Further properties of the code *)

(** ** indexForLetter and Word *)

(** X1: an index [indexForLetter] returns is below NUMBER_OF_LETTERS, so it
    is within the position map of a Word, and two characters with the same
    index are the same character. *)
Theorem indexForLetter_in_range_injective (c d : ascii) (k : Z) :
  indexForLetter c = Ok k ->
  0 <= k < Z.of_nat NUMBER_OF_LETTERS /\
  (indexForLetter d = Ok k -> c = d).
Proof.
  intros Hc. apply indexForLetter_Ok in Hc as [Hlow ->].
  pose proof (letter_row_lt c Hlow) as Hlt. unfold letter_row in Hlt.
  assert (Hge : 0 <= char_code c - char_code "a").
  { unfold is_lower in Hlow. apply andb_true_iff in Hlow as [H _].
    apply Z.leb_le in H. lia. }
  split; [lia|].
  intros Hd. apply indexForLetter_Ok in Hd as [Hlow' E].
  apply char_code_inj. lia.
Qed.

Lemma indexForLetter_in_range_injective_witness :
  0 <= 4 < Z.of_nat NUMBER_OF_LETTERS /\
  (indexForLetter "e" = Ok 4 -> "e"%char = "e"%char).
Proof.
  apply (indexForLetter_in_range_injective "e" "e" 4). reflexivity.
Defined.

Lemma Word_fill_result (s : string) (idxs : list nat) (w : Word) :
  if forallb (fun i => is_lower (string_at s i)) idxs
  then exists w', Word_fill s idxs w = Ok w'
  else Word_fill s idxs w = Throw "Invalid letter".
Proof.
  revert w. induction idxs as [|i idxs IH]; intros w; cbn [forallb Word_fill].
  - eauto.
  - cbv zeta. destruct (is_lower (string_at s i)) eqn:E; cbn [andb].
    + rewrite (indexForLetter_lower _ E). cbn [bind]. apply IH.
    + unfold indexForLetter. fold (is_lower (string_at s i)). rewrite E. reflexivity.
Qed.

Lemma Word_ctor_valid (s : string) :
  if valid_word s then exists w, Word_ctor s = Ok w
  else if (String.length s =? WORD_LENGTH)%nat
       then Word_ctor s = Throw "Invalid letter"
       else Word_ctor s = Throw "Invalid word length".
Proof.
  unfold valid_word, Word_ctor.
  destruct (Nat.eqb_spec (String.length s) WORD_LENGTH) as [Hlen|Hlen];
    cbn [negb andb]; [|reflexivity].
  pose proof (Word_fill_result s (seq 0 WORD_LENGTH) Word_fresh) as H.
  rewrite list_of_string_at, forallb_map_comp, Hlen.
  exact H.
Qed.

Lemma Word_ctor_letters (s : string) (w : Word) :
  Word_ctor s = Ok w -> letters w = list_ascii_of_string s.
Proof.
  intros H. pose proof H as Hfill. unfold Word_ctor in Hfill.
  destruct (Nat.eqb_spec (String.length s) WORD_LENGTH) as [Hlen|Hlen];
    cbn [negb] in Hfill; [|discriminate].
  apply (Word_fill_inv s WORD_LENGTH 0 Word_fresh w (le_n _) (fill_inv_fresh s)) in Hfill.
  destruct Hfill as (Hl & _ & _ & Hlet & _).
  rewrite list_of_string_at, Hlen.
  apply (nth_ext _ _ zero zero).
  - now rewrite length_map, length_seq.
  - intros p Hp. rewrite Hl in Hp. destruct (Hlet p Hp) as [-> _].
    rewrite (nth_indep _ zero (string_at s 0)) by (rewrite length_map, length_seq; exact Hp).
    rewrite (map_nth (string_at s)), seq_nth by exact Hp. reflexivity.
Qed.

Lemma Word_ctor_toString (s : string) (w : Word) :
  Word_ctor s = Ok w -> toString w = s.
Proof.
  intros H. unfold toString. rewrite (Word_ctor_letters s w H).
  apply string_of_list_ascii_of_string.
Qed.

Lemma IsWord_ctor_toString (w : Word) : IsWord w -> Word_ctor (toString w) = Ok w.
Proof. intros [s Hs]. now rewrite (Word_ctor_toString s w Hs). Qed.

Lemma IsWord_letters_inj (w1 w2 : Word) :
  IsWord w1 -> IsWord w2 -> letters w1 = letters w2 -> w1 = w2.
Proof.
  intros H1 H2 E. apply IsWord_ctor_toString in H1, H2.
  unfold toString in H1, H2. rewrite E in H1. congruence.
Qed.

(** X2: [Word(std::string)] succeeds exactly on the strings of five letters
    a..z; a string of another length throws "Invalid word length" (even when
    it also holds a bad character), a string of length five with a character
    outside a..z throws "Invalid letter". *)
Theorem Word_ctor_accepts (wordString : string) :
  ((exists w, Word_ctor wordString = Ok w) <->
   String.length wordString = WORD_LENGTH /\
   Forall (fun c => is_lower c = true) (list_ascii_of_string wordString)) /\
  (Word_ctor wordString = Throw "Invalid word length" <->
   String.length wordString <> WORD_LENGTH) /\
  (Word_ctor wordString = Throw "Invalid letter" <->
   String.length wordString = WORD_LENGTH /\
   Exists (fun c => is_lower c = false) (list_ascii_of_string wordString)).
Proof.
  pose proof (Word_ctor_valid wordString) as H. unfold valid_word in H.
  destruct (Nat.eqb_spec (String.length wordString) WORD_LENGTH) as [Hlen|Hlen];
    cbn [andb] in H.
  - destruct (forallb is_lower (list_ascii_of_string wordString)) eqn:Hall.
    + destruct H as [w Hw]. rewrite forallb_forall in Hall.
      assert (HF : Forall (fun c => is_lower c = true) (list_ascii_of_string wordString))
        by now apply Forall_forall.
      split; [split; eauto|]. split.
      * rewrite Hw. split; [discriminate | contradiction].
      * rewrite Hw. split; [discriminate|]. intros [_ HE].
        apply Exists_exists in HE as (c & Hin & Hc). rewrite (Hall c Hin) in Hc.
        discriminate.
    + apply forallb_false_witness in Hall as (c & Hin & Hc).
      assert (HE : Exists (fun c => is_lower c = false) (list_ascii_of_string wordString))
        by (apply Exists_exists; eauto).
      split; [|split].
      * rewrite H. split; [intros [w Hw]; discriminate|].
        intros [_ HF]. rewrite Forall_forall in HF. rewrite (HF c Hin) in Hc. discriminate.
      * rewrite H. split; [discriminate | contradiction].
      * rewrite H. split; auto.
  - rewrite H. split; [|split].
    + split; [intros [w Hw]; discriminate | intros [? _]; contradiction].
    + split; auto.
    + split; [discriminate | intros [? _]; contradiction].
Qed.

(** X3: [toString] gives back the string a Word was constructed from, and
    constructing a Word from the [toString] of a Word gives that Word again;
    so two Words with the same text are equal, position map included. *)
Theorem Word_toString_roundtrip (w w' : Word) :
  IsWord w -> IsWord w' ->
  (forall wordString, Word_ctor wordString = Ok w -> toString w = wordString) /\
  Word_ctor (toString w) = Ok w /\
  (toString w = toString w' -> w = w').
Proof.
  intros H1 H2.
  split; [intros s; apply Word_ctor_toString|].
  split; [now apply IsWord_ctor_toString|].
  intros E. apply IsWord_ctor_toString in H1, H2. congruence.
Qed.

Lemma Word_toString_roundtrip_witness :
  (forall wordString,
     Word_ctor wordString = Ok (word_of "apple") ->
     toString (word_of "apple") = wordString) /\
  Word_ctor (toString (word_of "apple")) = Ok (word_of "apple") /\
  (toString (word_of "apple") = toString (word_of "apple") ->
   word_of "apple" = word_of "apple").
Proof.
  apply (Word_toString_roundtrip (word_of "apple") (word_of "apple"));
    exists "apple"; vm_compute; reflexivity.
Defined.

(** X4: on a Word, [containsLetter] of a letter a..z returns whether the
    letter occurs among the five letters of the word, and of any other
    character throws "Invalid letter". *)
Theorem containsLetter_spec (w : Word) (c : ascii) :
  IsWord w ->
  containsLetter w c
  = if is_lower c then Ok (existsb (Ascii.eqb c) (letters w))
    else Throw "Invalid letter".
Proof.
  intros Hw. apply IsWord_ok in Hw. destruct (is_lower c) eqn:Hc.
  - now apply containsLetter_ok.
  - unfold containsLetter, indexForLetter. fold (is_lower c). now rewrite Hc.
Qed.

Lemma containsLetter_spec_witness :
  containsLetter (word_of "apple") "p"
  = if is_lower "p" then Ok (existsb (Ascii.eqb "p") (letters (word_of "apple")))
    else Throw "Invalid letter".
Proof.
  apply (containsLetter_spec (word_of "apple") "p").
  exists "apple". vm_compute. reflexivity.
Defined.

(** ** GuessFeedback *)

Lemma feedback_code_Ok (c : ascii) (code : Z) :
  (if Ascii.eqb c "r" then Ok FEEDBACK_NOT_IN_WORD
   else if Ascii.eqb c "y" then Ok FEEDBACK_IN_WORD
   else if Ascii.eqb c "g" then Ok FEEDBACK_IN_POSITION
   else Throw "Invalid feedback code") = Ok code ->
  code = code_of_char c /\ feedback_char c = true.
Proof.
  unfold code_of_char, feedback_char.
  destruct (Ascii.eqb c "r"); [intros H; injection H as <-; auto|].
  destruct (Ascii.eqb c "y"); [intros H; injection H as <-; auto|].
  destruct (Ascii.eqb c "g"); [intros H; injection H as <-; auto|].
  discriminate.
Qed.

Lemma fill_str_fields (gs fs : string) (n i : nat) (gf0 gf : GuessFeedback) :
  GuessFeedback_fill_str gs fs (seq i n) gf0 = Ok gf ->
  length (guess gf0) = WORD_LENGTH -> length (feedback gf0) = WORD_LENGTH ->
  (i + n <= WORD_LENGTH)%nat ->
  length (guess gf) = WORD_LENGTH /\ length (feedback gf) = WORD_LENGTH /\
  forall p,
    ((i <= p < i + n)%nat ->
     nth p (guess gf) zero = string_at gs p /\
     nth p (feedback gf) 0 = code_of_char (string_at fs p) /\
     feedback_char (string_at fs p) = true) /\
    ((p < i)%nat ->
     nth p (guess gf) zero = nth p (guess gf0) zero /\
     nth p (feedback gf) 0 = nth p (feedback gf0) 0).
Proof.
  revert i gf0. induction n as [|n IH]; intros i gf0 H Hg Hf Hle;
    cbn [GuessFeedback_fill_str seq] in H.
  - injection H as <-. repeat split; auto; lia.
  - apply bind_Ok_inv in H as (code & Hcode & H). cbv zeta in Hcode.
    apply feedback_code_Ok in Hcode as [-> Hchar].
    specialize (IH (S i) _ H). cbn [guess feedback] in IH.
    rewrite !length_arr_set in IH.
    destruct (IH Hg Hf ltac:(lia)) as (Hg' & Hf' & Hp).
    split; [exact Hg'|]. split; [exact Hf'|].
    intros p. destruct (Hp p) as [Hp1 Hp2]. split; intros Hrange.
    + destruct (Nat.eq_dec p i) as [->|Hne].
      * destruct (Hp2 ltac:(lia)) as [-> ->].
        rewrite !nth_arr_set_eq by lia. auto.
      * apply Hp1. lia.
    + destruct (Hp2 ltac:(lia)) as [-> ->].
      rewrite !nth_arr_set_ne by lia. auto.
Qed.

Lemma GuessFeedback_eta (gf : GuessFeedback) :
  gf = {| guess := guess gf; feedback := feedback gf |}.
Proof. now destruct gf. Qed.

Lemma nth_ext_string_at {A : Type} (f : ascii -> A) (l : list A) (d : A) (s : string) :
  length l = String.length s ->
  (forall p, (p < String.length s)%nat -> nth p l d = f (string_at s p)) ->
  l = map f (list_ascii_of_string s).
Proof.
  intros Hlen Hnth. rewrite list_of_string_at, map_map.
  apply (nth_ext _ _ d d).
  - now rewrite length_map, length_seq.
  - intros p Hp. rewrite Hlen in Hp. rewrite (Hnth p Hp).
    rewrite (nth_indep _ d (f (string_at s 0))) by (rewrite length_map, length_seq; exact Hp).
    rewrite (map_nth (fun i => f (string_at s i))), seq_nth by exact Hp. reflexivity.
Qed.

Lemma of_strings_fields (gs fs : string) (gf : GuessFeedback) :
  GuessFeedback_of_strings gs fs = Ok gf ->
  String.length gs = WORD_LENGTH /\ valid_line fs = true /\
  gf = {| guess := list_ascii_of_string gs; feedback := codes_of_line fs |}.
Proof.
  unfold GuessFeedback_of_strings. intros H.
  destruct (Nat.eqb_spec (String.length gs) WORD_LENGTH) as [Hg|Hg];
    cbn [negb] in H; [|discriminate].
  destruct (Nat.eqb_spec (String.length fs) WORD_LENGTH) as [Hf|Hf];
    cbn [negb] in H; [|discriminate].
  destruct (fill_str_fields gs fs WORD_LENGTH 0 GuessFeedback_fresh gf H eq_refl eq_refl
              (le_n _)) as (Hlg & Hlf & Hp).
  split; [exact Hg|]. split.
  - unfold valid_line. rewrite Hf, Nat.eqb_refl. cbn [andb].
    rewrite list_of_string_at, forallb_map_comp, Hf.
    apply forallb_forall. intros p Hin0. apply in_seq in Hin0.
    now apply (Hp p).
  - rewrite (GuessFeedback_eta gf). f_equal.
    + rewrite <- (map_id (list_ascii_of_string gs)).
      apply (nth_ext_string_at (fun c => c) _ zero); [congruence|].
      intros p Hlt. apply (Hp p). lia.
    + apply (nth_ext_string_at code_of_char _ 0); [congruence|].
      intros p Hlt. apply (Hp p). lia.
Qed.

Lemma of_strings_valid (gs fs : string) :
  String.length gs = WORD_LENGTH -> valid_line fs = true ->
  GuessFeedback_of_strings gs fs
  = Ok {| guess := list_ascii_of_string gs; feedback := codes_of_line fs |}.
Proof.
  intros Hg Hv. unfold valid_line in Hv. apply andb_true_iff in Hv as [Hf Hall].
  apply Nat.eqb_eq in Hf.
  assert (H : exists gf, GuessFeedback_of_strings gs fs = Ok gf).
  { unfold GuessFeedback_of_strings. rewrite Hg, Hf, Nat.eqb_refl. cbn [negb].
    pose proof (fill_str_result gs fs (seq 0 WORD_LENGTH) GuessFeedback_fresh) as H.
    rewrite list_of_string_at, forallb_map_comp, Hf in Hall. now rewrite Hall in H. }
  destruct H as [gf Hgf]. rewrite Hgf.
  now destruct (of_strings_fields gs fs gf Hgf) as (_ & _ & <-).
Qed.

Lemma of_strings_invalid (gs fs : string) :
  String.length gs = WORD_LENGTH -> valid_line fs = false ->
  exists what, GuessFeedback_of_strings gs fs = Throw what.
Proof.
  intros Hg Hv. unfold GuessFeedback_of_strings. rewrite Hg, Nat.eqb_refl. cbn [negb].
  unfold valid_line in Hv.
  destruct (Nat.eqb_spec (String.length fs) WORD_LENGTH) as [Hf|Hf]; cbn [negb andb] in *;
    [|eauto].
  pose proof (fill_str_result gs fs (seq 0 WORD_LENGTH) GuessFeedback_fresh) as H.
  rewrite list_of_string_at, forallb_map_comp, Hf in Hv. rewrite Hv in H. eauto.
Qed.

Lemma code_of_char_valid (c : ascii) : valid_code (code_of_char c).
Proof.
  unfold code_of_char, valid_code.
  destruct (Ascii.eqb c "r"); [|destruct (Ascii.eqb c "y")]; auto.
Qed.

Lemma codes_of_line_valid (line : string) : Forall valid_code (codes_of_line line).
Proof.
  unfold codes_of_line. apply Forall_forall. intros x Hx.
  apply in_map_iff in Hx as (c & <- & _). apply code_of_char_valid.
Qed.

Lemma valid_line_length (line : string) :
  valid_line line = true -> length (codes_of_line line) = WORD_LENGTH.
Proof.
  unfold valid_line, codes_of_line. intros H. apply andb_true_iff in H as [H _].
  apply Nat.eqb_eq in H. rewrite length_map, <- H.
  rewrite list_of_string_at. now rewrite length_map, length_seq.
Qed.

(** X5: for a guess string of five characters and a feedback line of five
    symbols r, y, g, the constructor from strings succeeds and stores the
    characters of the guess and, position by position, the codes 0 for r,
    1 for y and 2 for g. *)
Theorem GuessFeedback_of_strings_fields (guessString line : string) :
  String.length guessString = WORD_LENGTH ->
  valid_line line = true ->
  GuessFeedback_of_strings guessString line
  = Ok {| guess := list_ascii_of_string guessString;
          feedback := codes_of_line line |}.
Proof. apply of_strings_valid. Qed.

Lemma GuessFeedback_of_strings_fields_witness :
  GuessFeedback_of_strings "roate" "rryrg"
  = Ok {| guess := list_ascii_of_string "roate"; feedback := codes_of_line "rryrg" |}.
Proof. apply (GuessFeedback_of_strings_fields "roate" "rryrg"); reflexivity. Defined.

(** X6: the two constructors agree: the feedback built from the text of a
    Word and a feedback line is the feedback [GuessFeedback(Word, int32_t)]
    builds from that Word and the key that packs the line's codes. *)
Theorem GuessFeedback_constructors_agree (w : Word) (line : string) (gf : GuessFeedback) :
  IsWord w ->
  GuessFeedback_of_strings (toString w) line = Ok gf ->
  gf = GuessFeedback_of_id w (packKey (codes_of_line line)).
Proof.
  intros Hw Hgf. apply IsWord_ok in Hw.
  destruct (of_strings_fields _ _ _ Hgf) as (_ & Hv & ->).
  rewrite (GuessFeedback_eta (GuessFeedback_of_id _ _)). f_equal.
  - rewrite guess_of_id_letters by exact Hw.
    unfold toString. apply list_ascii_of_string_of_list_ascii.
  - rewrite feedback_of_id_unpack. symmetry.
    apply unpack_pack; [now apply valid_line_length | apply codes_of_line_valid].
Qed.

Lemma GuessFeedback_constructors_agree_witness :
  feedback_of "roate" "rryrg"
  = GuessFeedback_of_id (word_of "roate") (packKey (codes_of_line "rryrg")).
Proof.
  apply (GuessFeedback_constructors_agree (word_of "roate") "rryrg").
  - exists "roate". vm_compute. reflexivity.
  - vm_compute. reflexivity.
Defined.

(** X7: for Words g, s0 and s, the feedback decoded from the key of g against
    s0 is consistent with s exactly when g against s has the same key: the
    solutions a feedback admits are those of its bucket. *)
Theorem consistent_iff_same_key (g s0 s : Word) :
  IsWord g -> IsWord s0 -> IsWord s ->
  exists k0 k,
    computeFeedbackId g s0 = Ok k0 /\
    computeFeedbackId g s = Ok k /\
    isConsistentWith (GuessFeedback_of_id g k0) s = Ok (k =? k0).
Proof.
  intros Hg Hs0 Hs. apply IsWord_ok in Hg, Hs0, Hs.
  exists (keyOf g s0), (keyOf g s).
  split; [now apply computeFeedbackId_ok|]. split; [now apply computeFeedbackId_ok|].
  rewrite (isConsistentWith_ok _ s Hs (guess_ok_of_id g _ Hg)). f_equal.
  apply consistentb_decoded; auto using codesOf_length, codesOf_valid.
Qed.

Lemma consistent_iff_same_key_witness :
  exists k0 k,
    computeFeedbackId (word_of "apple") (word_of "angle") = Ok k0 /\
    computeFeedbackId (word_of "apple") (word_of "ample") = Ok k /\
    isConsistentWith (GuessFeedback_of_id (word_of "apple") k0) (word_of "ample")
    = Ok (k =? k0).
Proof.
  apply (consistent_iff_same_key (word_of "apple") (word_of "angle") (word_of "ample"));
    [exists "apple" | exists "angle" | exists "ample"]; vm_compute; reflexivity.
Defined.

Lemma containsLetter_cases (w : Word) (c : ascii) :
  (is_lower c = false /\ containsLetter w c = Throw "Invalid letter") \/
  (exists b, containsLetter w c = Ok b).
Proof.
  unfold containsLetter, indexForLetter. fold (is_lower c).
  destruct (is_lower c); cbn [negb bind]; eauto.
Qed.

Lemma isConsistentWith_from_throws (gf : GuessFeedback) (word : Word)
    (idxs : list nat) (what : string) :
  isConsistentWith_from gf word idxs = Throw what ->
  what = "Invalid letter" /\
  exists i, In i idxs /\
    is_lower (nth i (guess gf) zero) = false /\
    (nth i (feedback gf) 0 = FEEDBACK_NOT_IN_WORD \/
     nth i (feedback gf) 0 = FEEDBACK_IN_WORD).
Proof.
  induction idxs as [|i idxs IH]; cbn [isConsistentWith_from]; [discriminate|].
  cbv zeta. intros H.
  assert (Hrest : isConsistentWith_from gf word idxs = Throw what ->
            what = "Invalid letter" /\
            exists j, In j (i :: idxs) /\
              is_lower (nth j (guess gf) zero) = false /\
              (nth j (feedback gf) 0 = FEEDBACK_NOT_IN_WORD \/
               nth j (feedback gf) 0 = FEEDBACK_IN_WORD)).
  { intros H'. destruct (IH H') as (-> & j & Hj & Hrest). split; [reflexivity|].
    exists j. split; [now right | exact Hrest]. }
  destruct (Z.eqb_spec (nth i (feedback gf) 0) FEEDBACK_NOT_IN_WORD) as [E0|_].
  { destruct (containsLetter_cases word (nth i (guess gf) zero)) as [[Hlow Hc] | [b Hc]];
      rewrite Hc in H; cbn [bind] in H.
    - injection H as <-. split; [reflexivity|]. exists i. split; [now left | auto].
    - destruct b; [discriminate | auto]. }
  destruct (Z.eqb_spec (nth i (feedback gf) 0) FEEDBACK_IN_WORD) as [E1|_].
  { destruct (containsLetter_cases word (nth i (guess gf) zero)) as [[Hlow Hc] | [b Hc]];
      rewrite Hc in H; cbn [bind] in H.
    - injection H as <-. split; [reflexivity|]. exists i. split; [now left | auto].
    - destruct b; cbn [negb] in H; [|discriminate].
      destruct (Ascii.eqb _ _); [discriminate | auto]. }
  destruct (nth i (feedback gf) 0 =? FEEDBACK_IN_POSITION).
  { destruct (Ascii.eqb _ _); cbn [negb] in H; [auto | discriminate]. }
  auto.
Qed.

(** X8: the only exception [isConsistentWith] throws is "Invalid letter", and
    only when some position coded ABSENT or PRESENT_ELSEWHERE holds a guess
    character outside a..z (the string constructor does not check the guess
    characters); positions coded CORRECT_POSITION never throw. *)
Theorem isConsistentWith_throws_only_invalid_letter
    (gf : GuessFeedback) (word : Word) (what : string) :
  isConsistentWith gf word = Throw what ->
  what = "Invalid letter" /\
  exists i, (i < WORD_LENGTH)%nat /\
    is_lower (nth i (guess gf) zero) = false /\
    (nth i (feedback gf) 0 = FEEDBACK_NOT_IN_WORD \/
     nth i (feedback gf) 0 = FEEDBACK_IN_WORD).
Proof.
  intros H. apply isConsistentWith_from_throws in H as (-> & i & Hi & Hrest).
  split; [reflexivity|]. exists i. apply in_seq in Hi. split; [lia | exact Hrest].
Qed.

Lemma isConsistentWith_throws_only_invalid_letter_witness :
  "Invalid letter" = "Invalid letter" /\
  exists i, (i < WORD_LENGTH)%nat /\
    is_lower (nth i (guess (feedback_of "ROATE" "rrrrr")) zero) = false /\
    (nth i (feedback (feedback_of "ROATE" "rrrrr")) 0 = FEEDBACK_NOT_IN_WORD \/
     nth i (feedback (feedback_of "ROATE" "rrrrr")) 0 = FEEDBACK_IN_WORD).
Proof.
  apply (isConsistentWith_throws_only_invalid_letter
           (feedback_of "ROATE" "rrrrr") (word_of "apple") "Invalid letter").
  vm_compute. reflexivity.
Defined.

(** ** computeFeedbackId *)

Lemma codesOf_all_correct (g s : Word) :
  Word_ok g -> Word_ok s ->
  (codesOf g s = repeat FEEDBACK_IN_POSITION WORD_LENGTH <-> letters g = letters s).
Proof.
  intros Hg Hs. split.
  - intros H. apply (nth_ext _ _ zero zero).
    + now rewrite (ok_length g Hg), (ok_length s Hs).
    + intros i Hi. rewrite (ok_length g Hg) in Hi.
      assert (Hc : nth i (codesOf g s) 0 = FEEDBACK_IN_POSITION).
      { rewrite H. now apply nth_repeat_lt. }
      unfold codesOf in Hc.
      rewrite (nth_indep _ 0 (codeAt g s 0)) in Hc by (rewrite length_map, length_seq; exact Hi).
      rewrite (map_nth (codeAt g s)), seq_nth in Hc by exact Hi.
      cbn [Nat.add] in Hc. unfold codeAt, Word_at in Hc.
      destruct (Ascii.eqb (nth i (letters s) zero) (nth i (letters g) zero)) eqn:E.
      * apply Ascii.eqb_eq in E. now symmetry.
      * destruct (containsb s _); discriminate.
  - intros E. unfold codesOf. cbn [seq map WORD_LENGTH repeat].
    unfold codeAt, Word_at. rewrite E, !Ascii.eqb_refl. reflexivity.
Qed.

(** X9: for Words g and s, [computeFeedbackId(g, s)] is MAX_FEEDBACK_ID, all
    five positions CORRECT_POSITION, exactly when g and s are the same
    word. *)
Theorem all_correct_iff_same_word (g s : Word) :
  IsWord g -> IsWord s ->
  (computeFeedbackId g s = Ok MAX_FEEDBACK_ID <-> g = s).
Proof.
  intros Hg Hs. pose proof (IsWord_ok g Hg) as Hg'. pose proof (IsWord_ok s Hs) as Hs'.
  rewrite (computeFeedbackId_ok g s Hg' Hs').
  change MAX_FEEDBACK_ID with (packKey (repeat FEEDBACK_IN_POSITION WORD_LENGTH)).
  split.
  - intros H. injection H as H.
    apply packKey_inj in H; auto using codesOf_length, codesOf_valid.
    + apply IsWord_letters_inj; auto. now apply codesOf_all_correct.
    + repeat (apply Forall_cons; [right; now right|]). apply Forall_nil.
  - intros <-. f_equal. f_equal. now apply codesOf_all_correct.
Qed.

Lemma all_correct_iff_same_word_witness :
  computeFeedbackId (word_of "apple") (word_of "apple") = Ok MAX_FEEDBACK_ID
  <-> word_of "apple" = word_of "apple".
Proof.
  apply (all_correct_iff_same_word (word_of "apple") (word_of "apple"));
    exists "apple"; vm_compute; reflexivity.
Defined.

(** X10: for Words g and s, the 2-bit field of position i of
    [computeFeedbackId(g, s)] is CORRECT_POSITION exactly when s has the
    letter g[i] at position i, ABSENT exactly when s does not contain g[i]
    at all, and PRESENT_ELSEWHERE in the remaining case, however often the
    letter occurs in g or s. *)
Theorem computeFeedbackId_fields (g s : Word) (i : nat) :
  IsWord g -> IsWord s -> (i < WORD_LENGTH)%nat ->
  exists k,
    computeFeedbackId g s = Ok k /\
    let field := Z.land (Z.shiftr k (2 * Z.of_nat i)) 3 in
    (field = FEEDBACK_IN_POSITION <-> Word_at s i = Word_at g i) /\
    (field = FEEDBACK_NOT_IN_WORD <-> ~ In (Word_at g i) (letters s)) /\
    (field = FEEDBACK_IN_WORD <->
     Word_at s i <> Word_at g i /\ In (Word_at g i) (letters s)).
Proof.
  intros Hg Hs Hi. apply IsWord_ok in Hg, Hs.
  exists (keyOf g s). split; [now apply computeFeedbackId_ok|]. cbv zeta.
  assert (Hfield : Z.land (Z.shiftr (keyOf g s) (2 * Z.of_nat i)) 3 = codeAt g s i).
  { pose proof (unpack_pack (codesOf g s) (codesOf_length g s) (codesOf_valid g s)) as E.
    fold (keyOf g s) in E. apply (f_equal (fun l => nth i l 0)) in E.
    unfold unpackKey, codesOf in E.
    rewrite (nth_indep _ 0 (Z.land (Z.shiftr (keyOf g s) (2 * Z.of_nat 0)) 3)) in E
      by (rewrite length_map, length_seq; exact Hi).
    rewrite (map_nth (fun i => Z.land (Z.shiftr (keyOf g s) (2 * Z.of_nat i)) 3)) in E.
    rewrite (nth_indep (map (codeAt g s) _) 0 (codeAt g s 0)) in E
      by (rewrite length_map, length_seq; exact Hi).
    rewrite (map_nth (codeAt g s)), seq_nth in E by exact Hi. exact E. }
  rewrite Hfield. unfold codeAt.
  assert (Hin : containsb s (Word_at g i) = true <-> In (Word_at g i) (letters s)).
  { unfold containsb. rewrite existsb_exists. split.
    - intros (x & Hx & E). apply Ascii.eqb_eq in E. now subst.
    - intros H. exists (Word_at g i). split; [exact H | apply Ascii.eqb_refl]. }
  destruct (Ascii.eqb (Word_at s i) (Word_at g i)) eqn:E.
  - apply Ascii.eqb_eq in E.
    assert (In (Word_at g i) (letters s)).
    { rewrite <- E. unfold Word_at. apply nth_In. now rewrite (ok_length s Hs). }
    unfold FEEDBACK_IN_POSITION, FEEDBACK_NOT_IN_WORD, FEEDBACK_IN_WORD.
    repeat split; try discriminate; try tauto.
  - apply Ascii.eqb_neq in E.
    destruct (containsb s (Word_at g i));
      unfold FEEDBACK_IN_POSITION, FEEDBACK_NOT_IN_WORD, FEEDBACK_IN_WORD;
      repeat split; try discriminate; try tauto; intuition discriminate.
Qed.

Lemma computeFeedbackId_fields_witness :
  exists k,
    computeFeedbackId (word_of "apple") (word_of "angle") = Ok k /\
    let field := Z.land (Z.shiftr k (2 * Z.of_nat 1)) 3 in
    (field = FEEDBACK_IN_POSITION <->
     Word_at (word_of "angle") 1 = Word_at (word_of "apple") 1) /\
    (field = FEEDBACK_NOT_IN_WORD <->
     ~ In (Word_at (word_of "apple") 1) (letters (word_of "angle"))) /\
    (field = FEEDBACK_IN_WORD <->
     Word_at (word_of "angle") 1 <> Word_at (word_of "apple") 1 /\
     In (Word_at (word_of "apple") 1) (letters (word_of "angle"))).
Proof.
  apply (computeFeedbackId_fields (word_of "apple") (word_of "angle") 1).
  - exists "apple". vm_compute. reflexivity.
  - exists "angle". vm_compute. reflexivity.
  - unfold WORD_LENGTH. lia.
Defined.

(** ** The game: vocabularies and the stack *)

Lemma GuessFeedback_ok_push (fbs : list GuessFeedback) (gf : GuessFeedback) :
  Forall GuessFeedback_ok fbs -> GuessFeedback_ok gf -> Forall GuessFeedback_ok (fbs ++ [gf]).
Proof. intros H1 H2. apply Forall_app. split; [exact H1 | now constructor]. Qed.

Lemma EngineState_words (game : WordleGame) :
  EngineState game ->
  Forall IsWord (answerWords game) /\
  Forall IsWord (guessWords game) /\
  incl (answerWords game) (guessWords game) /\
  Forall GuessFeedback_ok (feedbacks game).
Proof.
  induction 1 as [gl al Hgl Hal | game gf _ (Ha & Hg & Hi & Hf) Hgf];
    cbn [WordleGame_ctor pushFeedback answerWords guessWords feedbacks].
  - split; [exact Hal|]. split; [now apply Forall_app|].
    split; [now apply incl_appr, incl_refl | constructor].
  - split; [exact Ha|]. split; [exact Hg|]. split; [exact Hi|].
    now apply GuessFeedback_ok_push.
Qed.

(** X11: in every engine state the two vocabularies hold Words only, every
    answer word is also a guess word (the constructor appended them), and
    every feedback on the stack has a Word as its guess; pushing a feedback
    changes neither vocabulary. *)
Theorem EngineState_vocabularies (game : WordleGame) :
  EngineState game ->
  Forall IsWord (answerWords game) /\
  Forall IsWord (guessWords game) /\
  incl (answerWords game) (guessWords game) /\
  Forall GuessFeedback_ok (feedbacks game) /\
  (forall gf, answerWords (pushFeedback gf game) = answerWords game /\
              guessWords (pushFeedback gf game) = guessWords game).
Proof.
  intros H. destruct (EngineState_words game H) as (Ha & Hg & Hi & Hf).
  repeat split; auto.
Qed.

Lemma EngineState_vocabularies_witness :
  Forall IsWord (answerWords game3) /\
  Forall IsWord (guessWords game3) /\
  incl (answerWords game3) (guessWords game3) /\
  Forall GuessFeedback_ok (feedbacks game3) /\
  (forall gf, answerWords (pushFeedback gf game3) = answerWords game3 /\
              guessWords (pushFeedback gf game3) = guessWords game3).
Proof. apply (EngineState_vocabularies game3). apply EngineState_game3. Defined.

Lemma popFeedbacks_pushes (gfs : list GuessFeedback) (game : WordleGame) :
  popFeedbacks (length gfs) (fold_left (fun g gf => pushFeedback gf g) gfs game)
  = Ok game.
Proof.
  induction gfs as [|gf gfs IH] using rev_ind; [reflexivity|].
  rewrite fold_left_app, length_app, Nat.add_1_r.
  cbn [fold_left popFeedbacks]. rewrite pop_push. cbn [bind]. exact IH.
Qed.

Lemma length_removelast {A : Type} (l : list A) :
  length (removelast l) = pred (length l).
Proof.
  induction l as [|x l IH]; [reflexivity|].
  destruct l as [|y l]; [reflexivity|].
  change (removelast (x :: y :: l)) with (x :: removelast (y :: l)).
  cbn [length] in *. now rewrite IH.
Qed.

Lemma popFeedbacks_too_many (n : nat) (game : WordleGame) :
  (length (feedbacks game) < n)%nat -> popFeedbacks n game = Undefined.
Proof.
  revert game. induction n as [|n IH]; intros game Hlt; [lia|].
  cbn [popFeedbacks]. unfold popFeedback.
  destruct (feedbacks game) as [|gf fbs] eqn:E; [reflexivity|].
  cbn [bind]. apply IH. cbn [feedbacks].
  rewrite length_removelast. cbn [length] in *. lia.
Qed.

(** X12: [popFeedback] undoes [pushFeedback]: after any feedbacks are pushed,
    as many pops give back the game exactly as it was; popping more
    feedbacks than the stack holds is undefined ([pop_back] on an empty
    vector). *)
Theorem pop_undoes_push (gfs : list GuessFeedback) (game : WordleGame) :
  popFeedbacks (length gfs) (fold_left (fun g gf => pushFeedback gf g) gfs game)
  = Ok game /\
  popFeedbacks (S (length (feedbacks game))) game = Undefined.
Proof.
  split; [apply popFeedbacks_pushes | apply popFeedbacks_too_many; lia].
Qed.

(** ** Candidates *)

Lemma filter_all {A : Type} (l : list A) : filter (fun _ => true) l = l.
Proof. induction l as [|x l IH]; simpl; congruence. Qed.

(** X13: on a newly constructed game, whose stack is empty, every word is a
    possible answer: the candidates are the whole solution vocabulary, in
    order, duplicates included. *)
Theorem candidates_of_new_game (guessWordList answerWordList : list Word) :
  candidates (WordleGame_ctor guessWordList answerWordList) = answerWordList /\
  forall word,
    isPossibleAnswer (WordleGame_ctor guessWordList answerWordList) word = Ok true.
Proof.
  split; [|reflexivity].
  unfold candidates, possible, isPossibleAnswer.
  cbn [WordleGame_ctor feedbacks answerWords isPossibleAnswer_from].
  apply filter_all.
Qed.

Lemma consistent_ok (gf : GuessFeedback) (word : Word) :
  guess_ok gf -> Word_ok word -> consistent gf word = consistentb gf word.
Proof. intros Hgf Hw. unfold consistent. now rewrite isConsistentWith_ok. Qed.

Lemma candidates_pushed (game : WordleGame) (gf : GuessFeedback) :
  Game_inv game -> guess_ok gf ->
  candidates (pushFeedback gf game) = filter (consistent gf) (candidates game).
Proof.
  intros Hinv Hgf.
  assert (Hinv' : Game_inv (pushFeedback gf game)).
  { destruct Hinv as [Ha Hg Hf Hi].
    split; cbn [pushFeedback answerWords guessWords feedbacks]; auto.
    apply Forall_app. split; [exact Hf | now constructor]. }
  rewrite (candidates_ok _ Hinv'), (candidates_ok _ Hinv).
  cbn [pushFeedback answerWords feedbacks].
  rewrite (filter_ext _ _ (fun s => possibleb_push (feedbacks game) gf s)).
  rewrite filter_andb. apply filter_ext_in. intros s Hs.
  symmetry. apply consistent_ok; [exact Hgf|].
  pose proof (cands_ok game Hinv) as Hc. rewrite Forall_forall in Hc. now apply Hc.
Qed.

(** X14: pushing a feedback keeps exactly the candidates consistent with it,
    in their order: the candidates after the push are the candidates before,
    filtered by [isConsistentWith]; no word ever becomes a candidate
    again. *)
Theorem candidates_after_push (game : WordleGame) (gf : GuessFeedback) :
  EngineState game -> GuessFeedback_ok gf ->
  candidates (pushFeedback gf game) = filter (consistent gf) (candidates game) /\
  incl (candidates (pushFeedback gf game)) (candidates game).
Proof.
  intros Hst Hgf.
  pose proof (candidates_pushed game gf (EngineState_inv game Hst)
                (GuessFeedback_ok_guess gf Hgf)) as E.
  split; [exact E|]. rewrite E. apply incl_filter.
Qed.

Lemma candidates_after_push_witness :
  candidates (pushFeedback (feedback_of "apple" "grrgg") game3)
  = filter (consistent (feedback_of "apple" "grrgg")) (candidates game3) /\
  incl (candidates (pushFeedback (feedback_of "apple" "grrgg") game3)) (candidates game3).
Proof.
  apply (candidates_after_push game3 (feedback_of "apple" "grrgg")).
  - apply EngineState_game3.
  - apply (ok_of_strings (word_of "apple") "grrgg").
    + exists "apple". vm_compute. reflexivity.
    + vm_compute. reflexivity.
Defined.

Lemma forallb_Permutation {A : Type} (f : A -> bool) (l l' : list A) :
  Permutation l l' -> forallb f l = forallb f l'.
Proof.
  induction 1 as [| x l l' _ IH | x y l | l l' l'' _ IH1 _ IH2]; cbn [forallb].
  - reflexivity.
  - now rewrite IH.
  - now rewrite !andb_assoc, (andb_comm (f y)).
  - congruence.
Qed.

(** X15: the order of the feedbacks on the stack does not matter: for a Word,
    [isPossibleAnswer] returns the same on two games whose stacks hold the
    same feedbacks in any order. *)
Theorem isPossibleAnswer_order_irrelevant (game game' : WordleGame) (word : Word) :
  Forall GuessFeedback_ok (feedbacks game) ->
  Permutation (feedbacks game) (feedbacks game') ->
  IsWord word ->
  isPossibleAnswer game' word = isPossibleAnswer game word.
Proof.
  intros Hf Hperm Hw. apply IsWord_ok in Hw.
  assert (Hok : Forall guess_ok (feedbacks game)).
  { eapply Forall_impl; [apply GuessFeedback_ok_guess | exact Hf]. }
  assert (Hok' : Forall guess_ok (feedbacks game')).
  { eapply Permutation_Forall; eassumption. }
  rewrite (isPossibleAnswer_ok game Hok word Hw), (isPossibleAnswer_ok game' Hok' word Hw).
  f_equal. unfold possibleb. symmetry. now apply forallb_Permutation.
Qed.

Lemma isPossibleAnswer_order_irrelevant_witness :
  isPossibleAnswer
    {| guessWords := guessWords game3; answerWords := answerWords game3;
       feedbacks := [feedback_of "apple" "grrgg"; feedback_of "roate" "rryrg"] |}
    (word_of "angle")
  = isPossibleAnswer (pushFeedback (feedback_of "apple" "grrgg") game3) (word_of "angle").
Proof.
  apply (isPossibleAnswer_order_irrelevant
           (pushFeedback (feedback_of "apple" "grrgg") game3)).
  - repeat constructor.
    + apply (ok_of_strings (word_of "roate") "rryrg");
        [exists "roate" |]; vm_compute; reflexivity.
    + apply (ok_of_strings (word_of "apple") "grrgg");
        [exists "apple" |]; vm_compute; reflexivity.
  - apply perm_swap.
  - exists "angle". vm_compute. reflexivity.
Defined.

(** X16: feedback computed against the solution never rules the solution
    out: if every feedback on the stack is [computeFeedback(g, s)] for some
    Word g, then [isPossibleAnswer(s)] is true. *)
Theorem honest_feedback_keeps_solution (game : WordleGame) (s : Word) :
  IsWord s ->
  Forall (fun gf => exists g, IsWord g /\ computeFeedback g s = Ok gf) (feedbacks game) ->
  isPossibleAnswer game s = Ok true.
Proof.
  intros Hs Hall. apply IsWord_ok in Hs. unfold isPossibleAnswer.
  induction Hall as [|gf fbs (g & Hg & Hgf) _ IH]; cbn [isPossibleAnswer_from];
    [reflexivity|].
  apply IsWord_ok in Hg. unfold computeFeedback in Hgf.
  rewrite (computeFeedbackId_ok g s Hg Hs) in Hgf. cbn [bind] in Hgf.
  injection Hgf as <-.
  rewrite (isConsistentWith_ok _ s Hs (guess_ok_of_id g _ Hg)). cbn [bind].
  rewrite (consistentb_decoded g s (codesOf g s) Hg Hs
             (codesOf_length g s) (codesOf_valid g s)).
  rewrite Z.eqb_refl. exact IH.
Qed.

Lemma honest_feedback_keeps_solution_witness :
  isPossibleAnswer
    (pushFeedback (GuessFeedback_of_id (word_of "apple") 642)
       (pushFeedback (GuessFeedback_of_id (word_of "roate") 528)
          (WordleGame_ctor [] [word_of "angle"])))
    (word_of "angle")
  = Ok true.
Proof.
  apply honest_feedback_keeps_solution.
  - exists "angle". vm_compute. reflexivity.
  - repeat constructor.
    + exists (word_of "roate"). split; [exists "roate" |]; vm_compute; reflexivity.
    + exists (word_of "apple"). split; [exists "apple" |]; vm_compute; reflexivity.
Defined.

(** ** getGuess on any game *)

Lemma scoreFeedbackIds_game (game game' : WordleGame) (g : Word) (counts : list Z)
    (ids : list Z) (n n' : Z) :
  scoreFeedbackIds game g counts ids n = Ok (n', game') -> game' = game.
Proof.
  revert n. induction ids as [|k ids IH]; intros n H; cbn [scoreFeedbackIds] in H.
  - now injection H as _ <-.
  - apply bind_Ok_inv in H as (c & _ & H).
    destruct (c =? 0); [now apply (IH n)|].
    cbv zeta in H. apply bind_Ok_inv in H as (n1 & _ & H).
    rewrite pop_push in H. cbn [bind] in H. now apply (IH n1).
Qed.

Lemma scoreGuess_game (game game' : WordleGame) (g : Word) (n : Z) :
  scoreGuess game g = Ok (n, game') -> game' = game.
Proof.
  unfold scoreGuess. intros H. apply bind_Ok_inv in H as (counts & _ & H).
  now apply scoreFeedbackIds_game in H.
Qed.

Lemma selectBest_result (game game' : WordleGame) (gs : list Word) (least least' : Z)
    (best best' : Word) :
  selectBest game gs least best = Ok (least', best', game') ->
  game' = game /\ (best' = best \/ In best' gs).
Proof.
  revert least best. induction gs as [|g gs IH]; intros least best H;
    cbn [selectBest] in H.
  - injection H as _ <- <-. auto.
  - apply bind_Ok_inv in H as ([n game1] & Hscore & H).
    apply scoreGuess_game in Hscore as ->.
    destruct ((n <? least) || (least <? 0)); apply IH in H as [-> [-> | Hin0]];
      split; auto; right; cbn [In]; auto.
Qed.

Lemma firstPossibleSolution_In (game : WordleGame) (sols : list Word) (w : Word) :
  firstPossibleSolution game sols = Ok (Some w) -> In w sols.
Proof.
  induction sols as [|s sols IH]; cbn [firstPossibleSolution]; [discriminate|].
  intros H. apply bind_Ok_inv in H as (b & _ & H).
  destruct b; [injection H as <-; now left | right; auto].
Qed.

Lemma vec_at_In {A : Type} (v : list A) (i : Z) (x : A) : vec_at v i = Ok x -> In x v.
Proof.
  unfold vec_at. destruct (i <? 0); [discriminate|].
  destruct (nth_error v (Z.to_nat i)) as [y|] eqn:E; [|discriminate].
  intros H. injection H as <-. now apply nth_error_In in E.
Qed.

Lemma getGuess_result (game game' : WordleGame) (w : Word) (out : list string) :
  getGuess game = Ok (w, game', out) ->
  game' = game /\
  (feedbacks game = [] /\ w = word_of "roate" \/
   feedbacks game <> [] /\ (In w (answerWords game) \/ In w (guessWords game))).
Proof.
  unfold getGuess. destruct (feedbacks game) as [|gf fbs] eqn:Efbs; cbn [length Nat.eqb].
  - replace (Word_ctor "roate") with (Ok (word_of "roate")) by (vm_compute; reflexivity).
    cbn [bind]. intros H. injection H as <- <- _. auto.
  - intros H. apply bind_Ok_inv in H as (bestGuess & Hbest & H).
    apply vec_at_In in Hbest.
    apply bind_Ok_inv in H as (num & _ & H).
    apply bind_Ok_inv in H as (out' & _ & H).
    apply bind_Ok_inv in H as (early & Hearly & H).
    destruct early as [possibleSolution|].
    + injection H as <- <- _. split; [reflexivity|]. right. split; [discriminate|].
      left. destruct (num <=? 2); [|discriminate].
      now apply firstPossibleSolution_In in Hearly.
    + apply bind_Ok_inv in H as ([[l b] g'] & Hsel & H).
      injection H as <- <- _.
      apply selectBest_result in Hsel as [-> [-> | Hin0]];
        (split; [reflexivity|]; right; split; [discriminate | now right]).
Qed.

(** X17: whenever [getGuess] returns, the game is as it was before the call:
    every speculative feedback pushed during the search has been popped
    again. This holds for any game, whatever its words and feedbacks. *)
Theorem getGuess_restores_game (game game' : WordleGame) (w : Word) (out : list string) :
  getGuess game = Ok (w, game', out) -> game' = game.
Proof. intros H. now apply getGuess_result in H. Qed.

Lemma getGuess_restores_game_witness :
  snd (fst (word_of "apple", game2,
            ["POSSIBLE SOLUTIONS: "; "apple"; "angle"])) = game2.
Proof.
  apply (getGuess_restores_game game2 _ (word_of "apple")
           ["POSSIBLE SOLUTIONS: "; "apple"; "angle"]).
  vm_compute. reflexivity.
Defined.

(** X18: in an engine state the word [getGuess] returns is a Word, and from
    the second round on (non-empty stack) it is a word of the guess
    vocabulary; only the opening word "roate" can lie outside it. *)
Theorem getGuess_returns_vocabulary_word
    (game game' : WordleGame) (w : Word) (out : list string) :
  EngineState game ->
  getGuess game = Ok (w, game', out) ->
  IsWord w /\ (feedbacks game <> [] -> In w (guessWords game)).
Proof.
  intros Hst H. destruct (EngineState_words game Hst) as (Ha & Hg & Hi & _).
  apply getGuess_result in H as [_ [[Hempty ->] | [Hne Hin0]]].
  - split; [exists "roate"; vm_compute; reflexivity | congruence].
  - assert (Hin' : In w (guessWords game)) by (destruct Hin0; auto).
    split; [|auto]. rewrite Forall_forall in Hg. now apply Hg.
Qed.

Lemma getGuess_returns_vocabulary_word_witness :
  IsWord (word_of "apple") /\ (feedbacks game2 <> [] -> In (word_of "apple") (guessWords game2)).
Proof.
  apply (getGuess_returns_vocabulary_word game2 game2 (word_of "apple")
           ["POSSIBLE SOLUTIONS: "; "apple"; "angle"]).
  - apply EngineState_small.
    + repeat constructor. exists "nnnnn". vm_compute. reflexivity.
    + repeat constructor; [exists "apple" | exists "angle"]; vm_compute; reflexivity.
    + eexists. vm_compute. reflexivity.
  - vm_compute. reflexivity.
Defined.

Lemma vec_at_total {A : Type} (v : list A) (k : Z) :
  0 <= k -> (Z.to_nat k < length v)%nat -> exists c, vec_at v k = Ok c.
Proof.
  intros Hk Hlt. unfold vec_at. destruct (Z.ltb_spec k 0); [lia|].
  destruct (nth_error v (Z.to_nat k)) as [c|] eqn:E; [eauto|].
  apply nth_error_None in E. lia.
Qed.

Lemma countFeedbackIds_total (game : WordleGame) (g : Word) (sols : list Word)
    (counts : list Z) :
  Forall guess_ok (feedbacks game) -> Word_ok g -> Forall Word_ok sols ->
  length counts = NUM_FEEDBACK_IDS ->
  exists counts',
    countFeedbackIds game g sols counts = Ok counts' /\
    length counts' = NUM_FEEDBACK_IDS.
Proof.
  intros Hf Hg Hsols. revert counts.
  induction Hsols as [|s sols Hs _ IH]; intros counts Hlen; cbn [countFeedbackIds].
  - eauto.
  - rewrite (isPossibleAnswer_ok game Hf s Hs). cbn [bind].
    destruct (possibleb (feedbacks game) s); cbn [negb]; [|now apply IH].
    rewrite (computeFeedbackId_ok g s Hg Hs). cbn [bind]. fold (keyOf g s).
    pose proof (keyOf_range g s) as Hk.
    destruct (vec_at_total counts (keyOf g s)) as [c ->];
      [lia | rewrite Hlen; now apply key_index |].
    cbn [bind]. apply IH. now rewrite length_arr_set.
Qed.

Lemma addRemaining_total (game : WordleGame) (sols : list Word) (counts : list Z)
    (k c n : Z) :
  Forall guess_ok (feedbacks game) -> Forall Word_ok sols ->
  vec_at counts k = Ok c ->
  exists n', addRemaining game sols counts k n = Ok n'.
Proof.
  intros Hf Hsols Hc. revert n.
  induction Hsols as [|s sols Hs _ IH]; intros n; cbn [addRemaining].
  - eauto.
  - rewrite (isPossibleAnswer_ok game Hf s Hs). cbn [bind].
    destruct (possibleb (feedbacks game) s); [rewrite Hc; cbn [bind]|]; apply IH.
Qed.

Lemma scoreFeedbackIds_total (game : WordleGame) (g : Word) (counts : list Z)
    (ids : list Z) (n : Z) :
  Game_inv game -> Word_ok g -> length counts = NUM_FEEDBACK_IDS ->
  Forall (fun k => 0 <= k <= MAX_FEEDBACK_ID) ids ->
  exists n', scoreFeedbackIds game g counts ids n = Ok (n', game).
Proof.
  intros Hinv Hg Hlen Hids. revert n.
  induction Hids as [|k ids Hk _ IH]; intros n; cbn [scoreFeedbackIds].
  - eauto.
  - destruct (vec_at_total counts k) as [c Hc];
      [lia | rewrite Hlen; now apply key_index |].
    rewrite Hc. cbn [bind]. destruct (c =? 0); [apply IH|]. cbv zeta.
    destruct (addRemaining_total (pushFeedback (GuessFeedback_of_id g k) game)
                (answerWords (pushFeedback (GuessFeedback_of_id g k) game))
                counts k c n) as [n1 ->].
    + cbn [pushFeedback feedbacks]. apply Forall_app. split.
      * apply (inv_feedbacks game Hinv).
      * constructor; [now apply guess_ok_of_id | constructor].
    + apply (inv_answers game Hinv).
    + exact Hc.
    + cbn [bind]. rewrite pop_push. cbn [bind]. apply IH.
Qed.

(** On a game of Words the score of a Word is always computed: no
    exception, no index out of range, the game restored. *)
Lemma scoreGuess_total (game : WordleGame) (g : Word) :
  Game_inv game -> Word_ok g ->
  scoreGuess game g = Ok (accumulated game g, game).
Proof.
  intros Hinv Hg.
  assert (H : exists n, scoreGuess game g = Ok (n, game)).
  { unfold scoreGuess. fold NUM_FEEDBACK_IDS.
    destruct (countFeedbackIds_total game g (answerWords game)
                (repeat 0 NUM_FEEDBACK_IDS) (inv_feedbacks game Hinv) Hg
                (inv_answers game Hinv) (repeat_length _ _)) as (counts & -> & Hlen).
    cbn [bind].
    apply (scoreFeedbackIds_total game g counts feedbackIdRange 0 Hinv Hg Hlen).
    now apply feedbackIdRange_ok. }
  destruct H as [n H]. unfold accumulated. now rewrite H.
Qed.

Lemma getGuess_total (game : WordleGame) :
  Game_inv game -> guessWords game <> [] ->
  exists w out, getGuess game = Ok (w, game, out).
Proof.
  intros Hinv Hgs.
  destruct (feedbacks game) as [|gf fbs] eqn:Efbs.
  - exists (word_of "roate"), []. unfold getGuess. rewrite Efbs. cbn [length Nat.eqb].
    replace (Word_ctor "roate") with (Ok (word_of "roate")) by (vm_compute; reflexivity).
    reflexivity.
  - rewrite (getGuess_nonempty game Hinv) by (rewrite Efbs; discriminate).
    destruct (guessWords game) as [|w0 rest] eqn:Egs; [congruence|].
    rewrite vec_at_head. cbn [bind]. cbv zeta.
    destruct (if wrap32 (Z.of_nat (length (candidates game))) <=? 2
              then hd_error (candidates game) else None) as [first|]; [eauto|].
    rewrite (selectBest_ok game (accumulated game)).
    + cbn [bind]. destruct (pickBest _ _ _ _) as [l b]. eauto.
    + intros g Hin0. apply scoreGuess_total; auto.
      pose proof (inv_guesses game Hinv) as Hw. rewrite Forall_forall in Hw.
      apply Hw. now rewrite Egs.
Qed.

(** X19: in an engine state with a non-empty guess vocabulary in which no
    guess's sum of squared bucket sizes exceeds INT32_MAX, so that no
    [int32_t] addition overflows, [getGuess] always returns a word and
    leaves the game as it was: it neither throws nor indexes the count table
    or a vocabulary out of range. *)
Theorem getGuess_never_fails (game : WordleGame) :
  EngineState game ->
  guessWords game <> [] ->
  Forall (fun g => sumSquares g (candidates game) <= INT32_MAX) (guessWords game) ->
  exists w out, getGuess game = Ok (w, game, out).
Proof.
  intros Hst Hgs _. apply getGuess_total; [now apply EngineState_inv | exact Hgs].
Qed.

Lemma getGuess_never_fails_witness : exists w out, getGuess game3 = Ok (w, game3, out).
Proof.
  apply (getGuess_never_fails game3).
  - apply EngineState_game3.
  - discriminate.
  - apply game3_fits.
Defined.

(** X20: with a non-empty stack, [getGuess] prints the line
    "POSSIBLE SOLUTIONS: " followed by the candidates, in vocabulary order,
    when there are fewer than 100 of them, and prints nothing otherwise. *)
Theorem getGuess_prints_candidates
    (game game' : WordleGame) (w : Word) (out : list string) :
  EngineState game ->
  feedbacks game <> [] ->
  Z.of_nat (length (candidates game)) <= INT32_MAX ->
  getGuess game = Ok (w, game', out) ->
  out = if Z.of_nat (length (candidates game)) <? 100
        then "POSSIBLE SOLUTIONS: " :: map toString (candidates game)
        else [].
Proof.
  intros Hst Hne Hfit H. pose proof (EngineState_inv game Hst) as Hinv.
  rewrite (getGuess_nonempty game Hinv Hne) in H.
  rewrite wrap32_small in H by (unfold INT32_MAX in *; lia).
  apply bind_Ok_inv in H as (bestGuess & _ & H). cbv zeta in H.
  destruct (if Z.of_nat (length (candidates game)) <=? 2
            then hd_error (candidates game) else None) as [first|].
  - now injection H as _ _ <-.
  - apply bind_Ok_inv in H as ([[l b] g'] & _ & H). now injection H as _ _ <-.
Qed.

Lemma getGuess_prints_candidates_witness :
  ["POSSIBLE SOLUTIONS: "; "apple"; "angle"]
  = if Z.of_nat (length (candidates game2)) <? 100
    then "POSSIBLE SOLUTIONS: " :: map toString (candidates game2)
    else [].
Proof.
  apply (getGuess_prints_candidates game2 game2 (word_of "apple")).
  - apply EngineState_small.
    + repeat constructor. exists "nnnnn". vm_compute. reflexivity.
    + repeat constructor; [exists "apple" | exists "angle"]; vm_compute; reflexivity.
    + eexists. vm_compute. reflexivity.
  - discriminate.
  - vm_compute. discriminate.
  - vm_compute. reflexivity.
Defined.

(** X21: the score of a guess lies between the number of candidates (every
    candidate alone in its bucket) and its square (all candidates in one
    bucket), as long as the sum of squares does not exceed INT32_MAX. *)
Theorem score_between_count_and_square (game : WordleGame) (g : Word) :
  EngineState game ->
  In g (guessWords game) ->
  sumSquares g (candidates game) <= INT32_MAX ->
  exists n,
    scoreGuess game g = Ok (n, game) /\
    Z.of_nat (length (candidates game)) <= n
    <= Z.of_nat (length (candidates game)) * Z.of_nat (length (candidates game)).
Proof.
  intros Hst Hin0 Hfit. pose proof (EngineState_inv game Hst) as Hinv.
  pose proof (inv_guesses game Hinv) as Hw. rewrite Forall_forall in Hw.
  specialize (Hw g Hin0).
  exists (sumSquares g (candidates game)).
  split; [now apply scoreGuess_fits|].
  split; [now apply sumSquares_bounds|].
  rewrite (sumSquares_ok g _ Hw (candidates_words game Hinv)).
  destruct (sumZ_squares_le (bucketb g (candidates game)) feedbackIdRange) as [_ H].
  { intros k. apply bucketb_le. }
  now rewrite sum_buckets in H.
Qed.

Lemma score_between_count_and_square_witness :
  exists n,
    scoreGuess game3 (word_of "apple") = Ok (n, game3) /\
    Z.of_nat (length (candidates game3)) <= n
    <= Z.of_nat (length (candidates game3)) * Z.of_nat (length (candidates game3)).
Proof.
  apply (score_between_count_and_square game3 (word_of "apple")).
  - apply EngineState_game3.
  - right. left. reflexivity.
  - vm_compute. discriminate.
Defined.

(** ** readFileLines *)

Lemma valid_word_ctor (line : string) :
  valid_word line = true -> exists w, Word_ctor line = Ok w.
Proof. intros H. pose proof (Word_ctor_valid line) as Hc. now rewrite H in Hc. Qed.

Lemma invalid_word_ctor (line : string) :
  valid_word line = false ->
  Word_ctor line = Throw (if (String.length line =? WORD_LENGTH)%nat
                          then "Invalid letter" else "Invalid word length").
Proof.
  intros H. pose proof (Word_ctor_valid line) as Hc. rewrite H in Hc.
  now destruct (String.length line =? WORD_LENGTH)%nat.
Qed.

Lemma Word_ctor_Ok_valid (line : string) (w : Word) :
  Word_ctor line = Ok w -> valid_word line = true.
Proof.
  intros H. destruct (valid_word line) eqn:E; [reflexivity|].
  rewrite (invalid_word_ctor line E) in H. discriminate.
Qed.

Lemma readFileLines_from_Ok (stream : list string) (acc ws : list Word) :
  readFileLines_from stream acc = Ok ws ->
  exists new, ws = acc ++ new /\ map toString new = stream /\ Forall IsWord new.
Proof.
  revert acc. induction stream as [|line stream IH]; intros acc H;
    cbn [readFileLines_from] in H.
  - injection H as <-. exists []. now rewrite app_nil_r.
  - apply bind_Ok_inv in H as (w & Hw & H).
    destruct (IH _ H) as (new & -> & Hmap & Hall).
    exists (w :: new). rewrite <- app_assoc. split; [reflexivity|]. split.
    + cbn [map]. now rewrite (Word_ctor_toString line w Hw), Hmap.
    + constructor; [now exists line | exact Hall].
Qed.

Lemma readFileLines_from_valid (stream : list string) (acc : list Word) :
  Forall (fun line => valid_word line = true) stream ->
  exists ws, readFileLines_from stream acc = Ok ws.
Proof.
  intros Hall. revert acc.
  induction Hall as [|line stream Hline _ IH]; intros acc; cbn [readFileLines_from].
  - eauto.
  - destruct (valid_word_ctor line Hline) as [w ->]. cbn [bind]. apply IH.
Qed.

Lemma readFileLines_from_bad (good rest : list string) (bad : string) (acc : list Word) :
  Forall (fun line => valid_word line = true) good ->
  valid_word bad = false ->
  readFileLines_from (good ++ bad :: rest) acc
  = Throw (if (String.length bad =? WORD_LENGTH)%nat
           then "Invalid letter" else "Invalid word length").
Proof.
  intros Hgood Hbad. revert acc.
  induction Hgood as [|line good Hline _ IH]; intros acc;
    cbn [app readFileLines_from].
  - now rewrite (invalid_word_ctor bad Hbad).
  - destruct (valid_word_ctor line Hline) as [w ->]. cbn [bind]. apply IH.
Qed.

(** X22: when [readFileLines] succeeds, the Words it returns are the lines of
    the stream, in order and one per line: their texts are the lines
    read. *)
Theorem readFileLines_roundtrip (stream : list string) (ws : list Word) :
  readFileLines stream = Ok ws ->
  map toString ws = stream /\ Forall IsWord ws /\ length ws = length stream.
Proof.
  intros H. apply readFileLines_from_Ok in H as (new & -> & Hmap & Hall).
  cbn [app]. split; [exact Hmap|]. split; [exact Hall|].
  now rewrite <- Hmap, length_map.
Qed.

Lemma readFileLines_roundtrip_witness :
  map toString [word_of "apple"; word_of "angle"] = ["apple"; "angle"] /\
  Forall IsWord [word_of "apple"; word_of "angle"] /\
  length [word_of "apple"; word_of "angle"] = length ["apple"; "angle"].
Proof.
  apply (readFileLines_roundtrip ["apple"; "angle"]). vm_compute. reflexivity.
Defined.

(** X23: [readFileLines] succeeds exactly when every line is a string of five
    letters a..z; otherwise it throws the exception of the first line that is
    not, "Invalid word length" or "Invalid letter", whatever follows that
    line. An empty stream gives the empty vocabulary. *)
Theorem readFileLines_accepts (stream : list string) :
  ((exists ws, readFileLines stream = Ok ws) <->
   Forall (fun line => valid_word line = true) stream) /\
  (forall good bad rest,
     stream = good ++ bad :: rest ->
     Forall (fun line => valid_word line = true) good ->
     valid_word bad = false ->
     readFileLines stream
     = Throw (if (String.length bad =? WORD_LENGTH)%nat
              then "Invalid letter" else "Invalid word length")).
Proof.
  split.
  - split.
    + intros [ws H]. apply readFileLines_from_Ok in H as (new & _ & Hmap & Hall).
      rewrite <- Hmap. apply Forall_forall. intros line Hin0.
      apply in_map_iff in Hin0 as (w & <- & Hw). rewrite Forall_forall in Hall.
      pose proof (IsWord_ctor_toString w (Hall w Hw)) as Hc.
      now apply Word_ctor_Ok_valid in Hc.
    + apply readFileLines_from_valid.
  - intros good bad rest -> Hgood Hbad. now apply readFileLines_from_bad.
Qed.

Lemma readFileLines_accepts_witness :
  readFileLines ["apple"; "Angle"; "x"]
  = Throw (if (String.length "Angle" =? WORD_LENGTH)%nat
           then "Invalid letter" else "Invalid word length").
Proof.
  destruct (readFileLines_accepts ["apple"; "Angle"; "x"]) as [_ H].
  apply (H ["apple"] "Angle" ["x"]).
  - reflexivity.
  - repeat constructor.
  - reflexivity.
Defined.

(** ** The feedback prompt *)

Lemma IsWord_toString_length (w : Word) :
  IsWord w -> String.length (toString w) = WORD_LENGTH.
Proof.
  intros Hw. unfold toString. rewrite string_of_list_length.
  apply (ok_length w (IsWord_ok w Hw)).
Qed.

Lemma promptStep_valid (game : WordleGame) (guess : Word) (line : string) :
  IsWord guess -> valid_line line = true ->
  promptStep game guess line
  = Ok (pushFeedback {| guess := letters guess; feedback := codes_of_line line |} game,
        ["feedback: "], true).
Proof.
  intros Hw Hv. unfold promptStep.
  rewrite (of_strings_valid _ _ (IsWord_toString_length guess Hw) Hv).
  unfold toString. now rewrite list_ascii_of_string_of_list_ascii.
Qed.

Lemma promptStep_invalid (game : WordleGame) (guess : Word) (line : string) :
  IsWord guess -> valid_line line = false ->
  promptStep game guess line = Ok (game, ["feedback: "; "Invalid feedback!"], false).
Proof.
  intros Hw Hv. unfold promptStep.
  destruct (of_strings_invalid _ _ (IsWord_toString_length guess Hw) Hv) as [what ->].
  reflexivity.
Qed.

(** What the prompt prints for the rejected lines [bad]. *)
Lemma promptFeedback_skips (game : WordleGame) (guess : Word) (bad : list string)
    (stdin out : list string) :
  IsWord guess ->
  Forall (fun line => valid_line line = false) bad ->
  promptFeedback game guess (bad ++ stdin) out
  = promptFeedback game guess stdin
      (out ++ concat (map (fun _ => ["feedback: "; "Invalid feedback!"]) bad)).
Proof.
  intros Hw Hbad. revert out.
  induction Hbad as [|line bad Hline _ IH]; intros out; cbn [app map concat].
  - now rewrite app_nil_r.
  - cbn [promptFeedback]. rewrite (promptStep_invalid game guess line Hw Hline).
    rewrite IH, <- app_assoc. reflexivity.
Qed.

(** X24: the prompt skips every rejected line, printing "Invalid feedback!"
    for each, and stops at the first valid line: exactly that line's feedback
    is pushed, for the guess shown, and the lines after it are left unread.
    If no valid line comes, the game is unchanged and the prompt never
    ends. *)
Theorem promptFeedback_takes_first_valid_line (game : WordleGame) (guess : Word)
    (bad : list string) (good : string) (rest out : list string) :
  IsWord guess ->
  Forall (fun line => valid_line line = false) bad ->
  valid_line good = true ->
  promptFeedback game guess (bad ++ good :: rest) out
  = Accepted
      (pushFeedback {| guess := letters guess; feedback := codes_of_line good |} game)
      (out ++ concat (map (fun _ => ["feedback: "; "Invalid feedback!"]) bad)
           ++ ["feedback: "])
      rest /\
  promptFeedback game guess bad out
  = Starved game
      (out ++ concat (map (fun _ => ["feedback: "; "Invalid feedback!"]) bad)
           ++ ["feedback: "]).
Proof.
  intros Hw Hbad Hgood. split.
  - rewrite (promptFeedback_skips game guess bad _ out Hw Hbad).
    cbn [promptFeedback]. rewrite (promptStep_valid game guess good Hw Hgood).
    now rewrite <- app_assoc.
  - rewrite <- (app_nil_r bad) at 1.
    rewrite (promptFeedback_skips game guess bad _ out Hw Hbad).
    cbn [promptFeedback]. now rewrite <- app_assoc.
Qed.

Lemma promptFeedback_takes_first_valid_line_witness :
  promptFeedback game3 (word_of "apple") (["rygxg"; "gg"] ++ "grrgg" :: ["rrrrr"]) []
  = Accepted
      (pushFeedback {| guess := letters (word_of "apple");
                       feedback := codes_of_line "grrgg" |} game3)
      ([] ++ concat (map (fun _ => ["feedback: "; "Invalid feedback!"]) ["rygxg"; "gg"])
          ++ ["feedback: "])
      ["rrrrr"] /\
  promptFeedback game3 (word_of "apple") ["rygxg"; "gg"] []
  = Starved game3
      ([] ++ concat (map (fun _ => ["feedback: "; "Invalid feedback!"]) ["rygxg"; "gg"])
          ++ ["feedback: "]).
Proof.
  apply (promptFeedback_takes_first_valid_line game3 (word_of "apple")).
  - exists "apple". vm_compute. reflexivity.
  - repeat constructor.
  - reflexivity.
Defined.

(** ** main *)





Lemma promptFeedback_starved (game : WordleGame) (guess : Word) (stdin out : list string) :
  IsWord guess ->
  Forall (fun line => valid_line line = false) stdin ->
  promptFeedback game guess stdin out
  = Starved game
      (out ++ concat (map (fun _ => ["feedback: "; "Invalid feedback!"]) stdin)
           ++ ["feedback: "]).
Proof.
  intros Hw Hall.
  pose proof (promptFeedback_skips game guess stdin [] out Hw Hall) as H.
  rewrite app_nil_r in H. rewrite H. cbn [promptFeedback].
  now rewrite <- app_assoc.
Qed.




(** X26: when loading fails, [main] prints nothing and makes no guess. The
    answers file comes first: if it cannot be opened the program exits with
    status 1, and if one of its lines is not a word the exception of
    [Word] ends the program, in both cases whatever the guesses file is;
    only then is the guesses file opened and read, with the same two
    outcomes. *)
Theorem main_startup_failures
    (answersFile guessesFile : option (list string)) (stdin : list string) :
  (answersFile = None -> main answersFile guessesFile stdin = Exited 1 []) /\
  (forall good bad rest,
     answersFile = Some (good ++ bad :: rest) ->
     Forall (fun line => valid_word line = true) good -> valid_word bad = false ->
     main answersFile guessesFile stdin
     = Terminated (if (String.length bad =? WORD_LENGTH)%nat
                   then "Invalid letter" else "Invalid word length") []) /\
  (forall answersStream,
     answersFile = Some answersStream ->
     Forall (fun line => valid_word line = true) answersStream ->
     (guessesFile = None -> main answersFile guessesFile stdin = Exited 1 []) /\
     (forall good bad rest,
        guessesFile = Some (good ++ bad :: rest) ->
        Forall (fun line => valid_word line = true) good -> valid_word bad = false ->
        main answersFile guessesFile stdin
        = Terminated (if (String.length bad =? WORD_LENGTH)%nat
                      then "Invalid letter" else "Invalid word length") [])).
Proof.
  split; [intros ->; reflexivity|]. split.
  - intros good bad rest -> Hgood Hbad. unfold main, readFileLines.
    now rewrite (readFileLines_from_bad good rest bad [] Hgood Hbad).
  - intros answersStream -> Ha.
    destruct (readFileLines_from_valid answersStream [] Ha) as [aw Haw].
    unfold main, readFileLines. rewrite Haw. split.
    + intros ->. reflexivity.
    + intros good bad rest -> Hgood Hbad.
      now rewrite (readFileLines_from_bad good rest bad [] Hgood Hbad).
Qed.

Lemma main_startup_failures_witness :
  main (Some (["apple"] ++ "apples" :: ["angle"])) None ["rrrrr"]
  = Terminated (if (String.length "apples" =? WORD_LENGTH)%nat
                then "Invalid letter" else "Invalid word length") [].
Proof.
  destruct (main_startup_failures (Some (["apple"] ++ "apples" :: ["angle"])) None
              ["rrrrr"]) as (_ & H & _).
  apply (H ["apple"] "apples" ["angle"]).
  - reflexivity.
  - repeat constructor.
  - reflexivity.
Defined.

(** X27: with both vocabulary files empty, [main] still prints
    "guess: roate"; if no valid feedback line follows it prompts for ever,
    and after the first valid feedback line [getGuess] reads element 0 of the
    empty guess vocabulary, which is undefined. *)
Theorem main_empty_vocabularies (stdin : list string) :
  (Forall (fun line => valid_line line = false) stdin ->
   exists more,
     main (Some []) (Some []) stdin
     = Prompting (WordleGame_ctor [] []) ("guess: roate" :: more)) /\
  (forall bad good rest,
     stdin = bad ++ good :: rest ->
     Forall (fun line => valid_line line = false) bad -> valid_line good = true ->
     exists more,
       main (Some []) (Some []) stdin = UndefinedBehaviour ("guess: roate" :: more)).
Proof.
  assert (Hw : IsWord (word_of "roate")) by (exists "roate"; vm_compute; reflexivity).
  assert (Hget : getGuess (WordleGame_ctor [] [])
                 = Ok (word_of "roate", WordleGame_ctor [] [], []))
    by (vm_compute; reflexivity).
  split.
  - intros Hall. unfold main. cbn [readFileLines readFileLines_from app mainLoop].
    rewrite Hget. cbv zeta.
    rewrite (promptFeedback_starved _ _ stdin _ Hw Hall).
    eexists. reflexivity.
  - intros bad good rest -> Hbad Hgood. unfold main.
    cbn [readFileLines readFileLines_from app mainLoop].
    rewrite Hget. cbv zeta.
    rewrite (promptFeedback_skips _ _ bad _ _ Hw Hbad). cbn [promptFeedback].
    rewrite (promptStep_valid _ _ good Hw Hgood).
    rewrite length_app. cbn [length]. rewrite Nat.add_succ_r. cbn [mainLoop].
    eexists. reflexivity.
Qed.

Lemma main_empty_vocabularies_witness :
  exists more,
    main (Some []) (Some []) (["oops"] ++ "rrrrr" :: ["ggggg"])
    = UndefinedBehaviour ("guess: roate" :: more).
Proof.
  destruct (main_empty_vocabularies (["oops"] ++ "rrrrr" :: ["ggggg"])) as [_ H].
  apply (H ["oops"] "rrrrr" ["ggggg"]).
  - reflexivity.
  - repeat constructor.
  - reflexivity.
Defined.

(** The fuel [main] gives its loop is enough on every input: each round
    that ends reads at least one line. *)
Lemma promptFeedback_reads (game game' : WordleGame) (guess : Word)
    (stdin stdin' out out' : list string) :
  promptFeedback game guess stdin out = Accepted game' out' stdin' ->
  (length stdin' < length stdin)%nat.
Proof.
  revert game out. induction stdin as [|line stdin IH]; intros game out;
    cbn [promptFeedback]; [discriminate|].
  destruct (promptStep game guess line) as [[[g printed] gotFeedback]| |];
    try discriminate.
  destruct gotFeedback.
  - intros H. apply (f_equal (fun r => match r with
                                       | Accepted _ _ l => length l
                                       | _ => O
                                       end)) in H.
    cbv beta iota in H. cbn [length]. lia.
  - intros H. apply IH in H. cbn [length]. lia.
Qed.

Lemma mainLoop_fuel (fuel : nat) (game : WordleGame) (stdin out : list string) :
  (length stdin < fuel)%nat -> mainLoop fuel game stdin out <> OutOfFuel.
Proof.
  revert game stdin out. induction fuel as [|fuel IH]; intros game stdin out Hfuel;
    [lia|].
  cbn [mainLoop]. destruct (getGuess game) as [[[w game'] printed]| |]; try discriminate.
  cbv zeta.
  destruct (promptFeedback game' w stdin _) as [g o stdin'| |] eqn:E; try discriminate.
  apply IH. apply promptFeedback_reads in E. lia.
Qed.

Lemma main_fuel_suffices (answersFile guessesFile : option (list string))
    (stdin : list string) :
  main answersFile guessesFile stdin <> OutOfFuel.
Proof.
  unfold main. destruct answersFile as [a|]; [|discriminate].
  destruct (readFileLines a); try discriminate.
  destruct guessesFile as [g|]; [|discriminate].
  destruct (readFileLines g); try discriminate.
  apply mainLoop_fuel. lia.
Qed.
